(** * Overseer: the status aggregation engine of [overseer/models.py]

    A shallow embedding of the three Django models ([Service], [Event],
    [EventUpdate]) and of the signal handlers that keep the denormalised
    fields of events and services up to date.

    Conventions of the embedding:
    - [SmallIntegerField]s are Python integers, modelled as [Z];
    - [DateTimeField]s are points of a totally ordered time line, modelled
      as [Z];
    - nullable [TextField]s are [option string] ([None] is Python's [None]);
    - a table is the list of its rows, in the order the database returns
      them; a queryset [filter] keeps the matching rows, a queryset
      [update] rewrites the matching rows in place;
    - an in-memory model instance is a record value; the handlers mutate
      both the database rows and the instance they were given, so they
      return the new database together with the new instance; an instance
      need not agree with the row it was read from;
    - a Python exception is the [None] of an [option] result. *)

From Stdlib Require Import ZArith List Ascii String Bool Lia.
Import ListNotations.
Open Scope string_scope.
Open Scope Z_scope.

(** ** Data model *)

Definition STATUS_CHOICES : list (Z * string) :=
  [ (0, "No Problems"); (1, "Some Issues"); (2, "Unavailable") ].

(** The columns of [Service] the handlers read or write. *)
Module Service.
Record t := mk { pk : Z; status : Z; date_updated : Z }.

Definition set_status (v : Z) (s : t) : t :=
  mk (pk s) v (date_updated s).
Definition set_date_updated (v : Z) (s : t) : t :=
  mk (pk s) (status s) v.
End Service.

Module Event.
Record t := mk {
  pk : Z;
  status : Z;
  peak_status : Z;
  description : option string;
  message : option string;
  date_updated : Z
}.
End Event.

Module EventUpdate.
Record t := mk {
  pk : Z;
  event : Z;                 (* foreign key: the pk of the owning event *)
  status : Z;
  message : option string;
  date_created : Z
}.
End EventUpdate.

(** The database: the three tables and the many-to-many "through" table of
    [Event.services], whose rows are pairs (event id, service id). *)
Record DB := mkDB {
  services : list Service.t;
  events : list Event.t;
  event_services : list (Z * Z);
  eventupdates : list EventUpdate.t
}.

Definition set_services (db : DB) (l : list Service.t) : DB :=
  mkDB l (events db) (event_services db) (eventupdates db).
Definition set_events (db : DB) (l : list Event.t) : DB :=
  mkDB (services db) l (event_services db) (eventupdates db).
Definition set_event_services (db : DB) (l : list (Z * Z)) : DB :=
  mkDB (services db) (events db) l (eventupdates db).
Definition set_eventupdates (db : DB) (l : list EventUpdate.t) : DB :=
  mkDB (services db) (events db) (event_services db) l.

(** ** Querysets *)

(** [qs.filter(p).update(f)]: every matching row is rewritten. *)
Definition qs_update {A : Type} (p : A -> bool) (f : A -> A)
  (rows : list A) : list A :=
  map (fun r => if p r then f r else r) rows.

(** [pk in pk_set] *)
Definition pk_in (pk : Z) (pk_set : list Z) : bool :=
  existsb (Z.eqb pk) pk_set.

(** A row of the through table joins event [epk] and service [spk]. *)
Definition linked (db : DB) (epk spk : Z) : bool :=
  existsb (fun l => (fst l =? epk) && (snd l =? spk)) (event_services db).

(** [Service.objects.get(pk=..)] and [Event.objects.get(pk=..)]; [None]
    stands for [DoesNotExist]. *)
Definition get_service (db : DB) (pk : Z) : option Service.t :=
  find (fun s => Service.pk s =? pk) (services db).
Definition get_event (db : DB) (pk : Z) : option Event.t :=
  find (fun e => Event.pk e =? pk) (events db).

(** [event.services.all()].  The rows come in the order of the table; the
    [Meta] ordering of [Service] (by [order], then [name]) only decides in
    which order services are visited, and each visit rewrites the row of
    its own service only. *)
Definition services_all (db : DB) (event : Event.t) : list Service.t :=
  filter (fun s => linked db (Event.pk event) (Service.pk s)) (services db).

(** Python truthiness of a nullable text: [None] and the empty string are
    false. *)
Definition truthy (m : option string) : bool :=
  match m with
  | None => false
  | Some s => negb (s =? "")%string
  end.

(** ** [Service.update_from_event] *)

(** [Event.objects.filter(services=self, status=self.status)
         .exclude(pk=event.pk).exists()] *)
Definition other_event_matches (db : DB) (self : Service.t)
  (event : Event.t) : bool :=
  existsb (fun e =>
             linked db (Event.pk e) (Service.pk self)
             && (Event.status e =? Service.status self)
             && negb (Event.pk e =? Event.pk event))
          (events db).

Definition update_from_event (db : DB) (self : Service.t) (event : Event.t)
  : DB * Service.t :=
  let update_qs := fun s => Service.pk s =? Service.pk self in
  let '(db, self) :=
    if Event.date_updated event >? Service.date_updated self then
      (set_services db
         (qs_update
            (fun s => update_qs s
                      && (Service.date_updated s <? Event.date_updated event))
            (Service.set_date_updated (Event.date_updated event))
            (services db)),
       Service.set_date_updated (Event.date_updated event) self)
    else (db, self) in
  if Event.status event >? Service.status self then
    (set_services db
       (qs_update
          (fun s => update_qs s && (Service.status s <? Event.status event))
          (Service.set_status (Event.status event))
          (services db)),
     Service.set_status (Event.status event) self)
  else if Event.status event <? Service.status self then
    if negb (other_event_matches db self event) then
      (set_services db
         (qs_update
            (fun s => update_qs s && (Service.status s >? Event.status event))
            (Service.set_status (Event.status event))
            (services db)),
       Service.set_status (Event.status event) self)
    else (db, self)
  else (db, self).

(** ** [Service.handle_event_save] *)

(** [for service in instance.services.all(): service.update_from_event(instance)].
    The queryset is evaluated when the loop starts; each iteration works on
    the row it was handed. *)
Definition handle_event_save (db : DB) (instance : Event.t) : DB :=
  fold_left (fun db service => fst (update_from_event db service instance))
            (services_all db instance) db.

(** ** [Service.handle_event_m2m_save] *)

(** The [model] argument of [m2m_changed]: the class of the objects named by
    [pk_set].  The [instance] is of the class on the other side of the
    relation. *)
Inductive Model := ModelService | ModelEvent.

Definition instance_of (model : Model) : Type :=
  match model with
  | ModelService => Event.t
  | ModelEvent => Service.t
  end.

(** [pk_set] is [None] (for the [clear] actions) or a set of keys, kept as
    a list: the handler only tests it for emptiness and for membership.
    [not pk_set]: [None] or an empty set. *)
Definition pk_set_empty (pk_set : option (list Z)) : bool :=
  match pk_set with
  | None => true
  | Some [] => true
  | Some (_ :: _) => false
  end.

Definition pk_set_elems (pk_set : option (list Z)) : list Z :=
  match pk_set with
  | None => []
  | Some l => l
  end.

(** The [sender] argument is not read and is left out; [reverse] is not
    read either. *)
Definition handle_event_m2m_save (db : DB) (model : Model)
  (instance : instance_of model) (action : string) (reverse : bool)
  (pk_set : option (list Z)) : DB * instance_of model :=
  if negb (prefix "post_" action) then (db, instance)
  else if pk_set_empty pk_set then (db, instance)
  else
    match model return instance_of model -> DB * instance_of model with
    | ModelService => fun instance =>
        (fold_left
           (fun db service => fst (update_from_event db service instance))
           (filter (fun s => pk_in (Service.pk s) (pk_set_elems pk_set))
                   (services db))
           db,
         instance)
    | ModelEvent => fun instance =>
        fold_left
          (fun st event => update_from_event (fst st) (snd st) event)
          (filter (fun e => pk_in (Event.pk e) (pk_set_elems pk_set))
                  (events db))
          (db, instance)
    end instance.

(** ** [EventBase.get_message] *)

(** The abstract base class: what [get_message] needs of its subclasses. *)
Class EventBase (A : Type) := {
  eb_message : A -> option string;
  eb_status : A -> Z
}.

#[export] Instance Event_EventBase : EventBase Event.t :=
  {| eb_message := Event.message; eb_status := Event.status |}.
#[export] Instance EventUpdate_EventBase : EventBase EventUpdate.t :=
  {| eb_message := EventUpdate.message; eb_status := EventUpdate.status |}.

Definition get_message {A : Type} `{EventBase A} (self : A) : string :=
  if truthy (eb_message self) then
    match eb_message self with Some m => m | None => "" end
  else if eb_status self =? 0 then "Service is operating as expected."
  else if eb_status self =? 1 then
    "Experiencing some issues. Services mostly operational."
  else if eb_status self =? 2 then "Service is unavailable."
  else "".

(** ** [Event.handle_update_save] *)

(** The [update_kwargs] dictionary: the keys [status], [date_updated] and
    [message] are always there, [description] and [peak_status] only when
    the handler adds them. *)
Record UpdateKwargs := mkKwargs {
  kw_status : Z;
  kw_date_updated : Z;
  kw_message : option string;
  kw_description : option (option string);
  kw_peak_status : option Z
}.

(** [for k, v in update_kwargs.iteritems(): setattr(event, k, v)], and what
    [.update( **update_kwargs)] does to a row. *)
Definition setattrs (kw : UpdateKwargs) (event : Event.t) : Event.t :=
  Event.mk (Event.pk event)
           (kw_status kw)
           (match kw_peak_status kw with
            | Some p => p
            | None => Event.peak_status event
            end)
           (match kw_description kw with
            | Some d => d
            | None => Event.description event
            end)
           (kw_message kw)
           (kw_date_updated kw).

(** [order_by('-date_created')], as an insertion sort. *)
Fixpoint insert_desc (u : EventUpdate.t) (l : list EventUpdate.t)
  : list EventUpdate.t :=
  match l with
  | [] => [u]
  | v :: l' =>
      if EventUpdate.date_created v <? EventUpdate.date_created u
      then u :: l
      else v :: insert_desc u l'
  end.

Definition order_by_date_created_desc (l : list EventUpdate.t)
  : list EventUpdate.t :=
  fold_right insert_desc [] l.

(** The computation of [is_latest]; indexing an empty queryset raises. *)
Definition is_latest (db : DB) (event : Event.t) (created : bool)
  : option bool :=
  if created then Some true
  else
    match map EventUpdate.event
              (order_by_date_created_desc
                 (filter (fun u => EventUpdate.event u =? Event.pk event)
                         (eventupdates db))) with
    | [] => None
    | x :: _ => Some (x =? Event.pk event)
    end.

(** The dictionary the handler builds for the latest update. *)
Definition build_update_kwargs (event : Event.t) (instance : EventUpdate.t)
  : UpdateKwargs :=
  mkKwargs
    (EventUpdate.status instance)
    (EventUpdate.date_created instance)
    (EventUpdate.message instance)
    (if negb (truthy (Event.description event))
     then Some (EventUpdate.message instance) else None)
    (if (Event.peak_status event =? 0)
        || (Event.peak_status event <? EventUpdate.status instance)
     then Some (EventUpdate.status instance) else None).

(** [instance.event].  The foreign-key attribute gives the event object
    attached to the update when there is one (the update was built with
    [event=obj], or the attribute was read before), whatever the table
    holds by now; otherwise it fetches the row the key names, and a missing
    row raises [DoesNotExist].  [event_cache] is that attached object. *)
Definition instance_event (db : DB) (instance : EventUpdate.t)
  (event_cache : option Event.t) : option Event.t :=
  match event_cache with
  | Some event => Some event
  | None => get_event db (EventUpdate.event instance)
  end.

(** The handler reads [description], [peak_status] and [pk] from the object
    [instance.event], rewrites the rows of that key with [.update(..)] and
    the object itself with [setattr], and sends [post_save] for the object,
    which runs [Service.handle_event_save] (connected at the bottom of the
    module).  The result is the database and the object. *)
Definition handle_update_save (db : DB) (instance : EventUpdate.t)
  (event_cache : option Event.t) (created : bool) : option (DB * Event.t) :=
  match instance_event db instance event_cache with
  | None => None
  | Some event =>
      match is_latest db event created with
      | None => None
      | Some false => Some (db, event)
      | Some true =>
          let update_kwargs := build_update_kwargs event instance in
          let db :=
            set_events db
              (qs_update (fun e => Event.pk e =? Event.pk event)
                         (setattrs update_kwargs) (events db)) in
          let event := setattrs update_kwargs event in
          Some (handle_event_save db event, event)
      end
  end.

(** ** The operations of the record-management layer

    Saving a row and changing the many-to-many relation are done by the
    framework; the three [connect] lines at the bottom of the module route
    their signals to the handlers above. *)

(** Appending an update: the row is inserted, then [post_save] is sent with
    [created=True].  [event_cache] is the event object the update was built
    with, if any. *)
Definition append_update (db : DB) (u : EventUpdate.t)
  (event_cache : option Event.t) : option (DB * Event.t) :=
  handle_update_save (set_eventupdates db (eventupdates db ++ [u])) u
                     event_cache true.

(** A run of appends, each update with the object attached to it at the
    time. *)
Fixpoint append_updates (db : DB) (us : list (EventUpdate.t * option Event.t))
  : option DB :=
  match us with
  | [] => Some db
  | (u, event_cache) :: us' =>
      match append_update db u event_cache with
      | None => None
      | Some (db', _) => append_updates db' us'
      end
  end.

(** Creating an event: the row is inserted, then [post_save] is sent. *)
Definition create_event (db : DB) (e : Event.t) : DB :=
  handle_event_save (set_events db (events db ++ [e])) e.

(** [event.services.add(service)].  The manager first drops the keys that
    are linked already; [pre_add], the new rows of the through table and
    [post_add] are for the keys that are left, so adding a link that exists
    sends an empty [pk_set] and inserts nothing. *)
Definition link_event (db : DB) (event : Event.t) (spk : Z) : DB :=
  let new_ids := if linked db (Event.pk event) spk then [] else [spk] in
  let db := fst (handle_event_m2m_save db ModelService event "pre_add" false
                                       (Some new_ids)) in
  let db := set_event_services db
              (event_services db
               ++ map (fun k => (Event.pk event, k)) new_ids) in
  fst (handle_event_m2m_save db ModelService event "post_add" false
                             (Some new_ids)).

(** [service.event_set.add(event)]: the same from the other side. *)
Definition link_event_reverse (db : DB) (service : Service.t) (epk : Z)
  : DB * Service.t :=
  let new_ids := if linked db epk (Service.pk service) then [] else [epk] in
  let '(db, service) :=
    handle_event_m2m_save db ModelEvent service "pre_add" true
                          (Some new_ids) in
  let db := set_event_services db
              (event_services db
               ++ map (fun k => (k, Service.pk service)) new_ids) in
  handle_event_m2m_save db ModelEvent service "post_add" true (Some new_ids).

Definition remove_link (epk spk : Z) (l : list (Z * Z)) : list (Z * Z) :=
  filter (fun r => negb ((fst r =? epk) && (snd r =? spk))) l.

(** [event.services.remove(service)]: [pre_remove], the row of the through
    table is deleted, [post_remove]. *)
Definition unlink_event (db : DB) (event : Event.t) (spk : Z) : DB :=
  let db := fst (handle_event_m2m_save db ModelService event "pre_remove"
                                       false (Some [spk])) in
  let db := set_event_services db
              (remove_link (Event.pk event) spk (event_services db)) in
  fst (handle_event_m2m_save db ModelService event "post_remove" false
                             (Some [spk])).

(** [service.event_set.remove(event)] *)
Definition unlink_event_reverse (db : DB) (service : Service.t) (epk : Z)
  : DB * Service.t :=
  let '(db, service) :=
    handle_event_m2m_save db ModelEvent service "pre_remove" true
                          (Some [epk]) in
  let db := set_event_services db
              (remove_link epk (Service.pk service) (event_services db)) in
  handle_event_m2m_save db ModelEvent service "post_remove" true (Some [epk]).

(** [event.services.clear()]: [pre_clear] and [post_clear] carry no
    [pk_set]. *)
Definition clear_event_links (db : DB) (event : Event.t) : DB :=
  let db := fst (handle_event_m2m_save db ModelService event "pre_clear"
                                       false None) in
  let db := set_event_services db
              (filter (fun r => negb (fst r =? Event.pk event))
                      (event_services db)) in
  fst (handle_event_m2m_save db ModelService event "post_clear" false None).

(** ** The scenario: service [db_service], event [E1] *)

Module Scenario.
Definition db_service : Service.t := Service.mk 1 0 0.
Definition E1 : Event.t := Event.mk 1 0 0 None None 10.
Definition u1 : EventUpdate.t := EventUpdate.mk 1 1 2 (Some "db down") 20.
Definition u2 : EventUpdate.t :=
  EventUpdate.mk 2 1 1 (Some "partial recovery") 30.

Definition db0 : DB := mkDB [db_service] [] [] [].
Definition db1 : DB := link_event (create_event db0 E1) E1 1.
Definition db2 : option DB := append_updates db1 [(u1, None)].
Definition db3 : option DB := append_updates db1 [(u1, None); (u2, None)].
End Scenario.

(** ** Vocabulary of the statements *)

(** The status is one of the [STATUS_CHOICES]. *)
Definition valid_status (s : Z) : Prop := In s (map fst STATUS_CHOICES).

(** The message is absent: [None] or the empty string. *)
Definition no_message (m : option string) : Prop := m = None \/ m = Some "".

(** Some event other than [event], linked to [self] in [db], still holds the
    status of [self]. *)
Definition other_event_justifies (db : DB) (self : Service.t)
  (event : Event.t) : Prop :=
  exists e, In e (events db)
            /\ linked db (Event.pk e) (Service.pk self) = true
            /\ Event.status e = Service.status self
            /\ Event.pk e <> Event.pk event.

(** The greatest status among a list of updates ([0] for none). *)
Definition max_status (us : list EventUpdate.t) : Z :=
  fold_right Z.max 0 (map EventUpdate.status us).

(** The update with the greatest creation timestamp; among equal timestamps
    the one appended last. *)
Fixpoint latest_update (us : list EventUpdate.t) : option EventUpdate.t :=
  match us with
  | [] => None
  | u :: us' =>
      match latest_update us' with
      | None => Some u
      | Some v =>
          if EventUpdate.date_created u >? EventUpdate.date_created v
          then Some u else Some v
      end
  end.

(** Creation timestamps never go back along the list. *)
Fixpoint chronological (us : list EventUpdate.t) : Prop :=
  match us with
  | [] => True
  | u :: us' =>
      (forall v, In v us' ->
                 EventUpdate.date_created u <= EventUpdate.date_created v)
      /\ chronological us'
  end.

(** Primary keys are unique. *)
Fixpoint distinct (l : list Z) : bool :=
  match l with
  | [] => true
  | x :: l' => negb (pk_in x l') && distinct l'
  end.


(** What one call does to the rows of the services table: every row keeps
    its key, and its [date_updated] stays or moves up to the event's. *)
Definition row_advanced (event : Event.t) (s s' : Service.t) : Prop :=
  Service.pk s' = Service.pk s
  /\ Service.date_updated s <= Service.date_updated s'
  /\ (Service.date_updated s' = Service.date_updated s
      \/ Service.date_updated s' = Event.date_updated event).

(** The [date_updated] of a row [s] of the services table after a call for
    the instance [self] and [event]: the event's when the row has the key
    of the instance and both the instance and the row are older than the
    event, else the row's own. *)
Definition date_updated_after (self : Service.t) (event : Event.t)
  (s : Service.t) : Z :=
  if (Service.pk s =? Service.pk self)
     && (Service.date_updated self <? Event.date_updated event)
     && (Service.date_updated s <? Event.date_updated event)
  then Event.date_updated event
  else Service.date_updated s.

(** The object the handler works on: the attached one, else the row. *)
Definition cached_or (event_cache : option Event.t) (row : Event.t)
  : Event.t :=
  match event_cache with
  | Some event => event
  | None => row
  end.

(** A row [row] after the handler has worked on the object [obj]. *)
Definition aggregate_with (obj row : Event.t) (instance : EventUpdate.t)
  : Event.t :=
  setattrs (build_update_kwargs obj instance) row.

(** The attached object, if any, has the key the update names. *)
Definition cache_names_event (u : EventUpdate.t)
  (event_cache : option Event.t) : Prop :=
  match event_cache with
  | Some event => Event.pk event = EventUpdate.event u
  | None => True
  end.

(** The attached object, if any, has the key the update names and agrees
    with the row of that key on the field [f]. *)
Definition cache_agrees {A : Type} (f : Event.t -> A) (db : DB)
  (u : EventUpdate.t) (event_cache : option Event.t) : Prop :=
  match event_cache with
  | Some event =>
      Event.pk event = EventUpdate.event u
      /\ option_map f (get_event db (EventUpdate.event u)) = Some (f event)
  | None => True
  end.

(** Along a run of appends, every attached object agrees on [f] with the
    row as it is when its update is appended. *)
Fixpoint agreeing_run {A : Type} (f : Event.t -> A) (db : DB)
  (us : list (EventUpdate.t * option Event.t)) : Prop :=
  match us with
  | [] => True
  | (u, event_cache) :: us' =>
      cache_agrees f db u event_cache
      /\ match append_update db u event_cache with
         | Some (db', _) => agreeing_run f db' us'
         | None => True
         end
  end.

(** Two updates of event 1 whose creation timestamps go back, and two whose
    first message is blank. *)
Module Examples.
Definition late : EventUpdate.t := EventUpdate.mk 1 1 2 (Some "db down") 20.
Definition early : EventUpdate.t :=
  EventUpdate.mk 2 1 1 (Some "written afterwards") 15.
Definition blank : EventUpdate.t := EventUpdate.mk 1 1 1 (Some "") 20.
Definition second : EventUpdate.t :=
  EventUpdate.mk 2 1 1 (Some "still degraded") 30.
End Examples.

(** A database with two services and one event linked to the first, an
    update of that event, and an event object read some time ago. *)
Module Sample.
Definition first_update : EventUpdate.t := EventUpdate.mk 1 1 2 None 3.
Definition old_object : Event.t := Event.mk 1 0 1 None None 0.
Definition db0 : DB :=
  mkDB [Service.mk 1 0 0; Service.mk 2 0 0]
       [Event.mk 1 0 0 (Some "d") (Some "m") 1] [(1, 1)] [].
Definition db : DB :=
  set_eventupdates db0 [first_update; EventUpdate.mk 2 1 1 None 7].
Definition resaved : DB * Event.t :=
  match handle_update_save db first_update (Some old_object) false with
  | Some r => r
  | None => (db, old_object)
  end.
Definition appended : DB * Event.t :=
  match append_update db0 first_update (Some old_object) with
  | Some r => r
  | None => (db0, old_object)
  end.
End Sample.

(** Some event of the table, linked to [self], has the status of [self]. *)
Definition justified (db : DB) (self : Service.t) : Prop :=
  exists e, In e (events db)
            /\ linked db (Event.pk e) (Service.pk self) = true
            /\ Event.status e = Service.status self.

(** * Properties *)

(** Case analysis on every test of a conditional left in the goal. *)
Ltac case_ifs :=
  repeat match goal with
         | |- context [if ?c then _ else _] => destruct c
         end.

(** ** Querysets *)

Lemma truthy_false_iff (m : option string) :
  truthy m = false <-> no_message m.
Proof.
  unfold truthy, no_message. destruct m as [s|].
  - destruct (String.eqb_spec s ""); simpl; split; intros Hm.
    + right. now subst.
    + reflexivity.
    + discriminate.
    + destruct Hm as [Hm|Hm]; [discriminate | congruence].
  - split; auto.
Qed.

Lemma find_qs_update {A : Type} (key : A -> Z) (k : Z) (p : A -> bool)
  (f : A -> A) (rows : list A) :
  (forall r, key (f r) = key r) ->
  find (fun r => key r =? k) (qs_update p f rows)
  = option_map (fun r => if p r then f r else r)
               (find (fun r => key r =? k) rows).
Proof.
  intros Hkey. induction rows as [|r rows IH]; simpl; [reflexivity|].
  assert (Hk : key (if p r then f r else r) = key r)
    by (destruct (p r); auto).
  rewrite Hk. destruct (key r =? k); [reflexivity | exact IH].
Qed.

Lemma linked_set_services (db : DB) (l : list Service.t) (epk spk : Z) :
  linked (set_services db l) epk spk = linked db epk spk.
Proof. reflexivity. Qed.

Lemma other_event_matches_spec (db : DB) (self : Service.t)
  (event : Event.t) :
  other_event_matches db self event = true
  <-> other_event_justifies db self event.
Proof.
  unfold other_event_matches, other_event_justifies.
  rewrite existsb_exists. split.
  - intros (e & Hin & Hc).
    apply andb_true_iff in Hc as [Hc Hpk].
    apply andb_true_iff in Hc as [Hl Hs].
    exists e. repeat split; auto.
    + now apply Z.eqb_eq.
    + apply negb_true_iff, Z.eqb_neq in Hpk. exact Hpk.
  - intros (e & Hin & Hl & Hs & Hpk). exists e. split; [exact Hin|].
    rewrite Hl. apply Z.eqb_eq in Hs. rewrite Hs.
    apply Z.eqb_neq in Hpk. now rewrite Hpk.
Qed.

(** ** [update_from_event] touches the services table only *)

Lemma update_from_event_frame (db : DB) (self : Service.t)
  (event : Event.t) :
  let db' := fst (update_from_event db self event) in
  events db' = events db
  /\ event_services db' = event_services db
  /\ eventupdates db' = eventupdates db.
Proof.
  unfold update_from_event.
  destruct (Event.date_updated event >? Service.date_updated self);
    cbv zeta iota beta;
    case_ifs; simpl; auto.
Qed.

Lemma update_from_event_pk (db : DB) (self : Service.t) (event : Event.t) :
  Service.pk (snd (update_from_event db self event)) = Service.pk self.
Proof.
  unfold update_from_event.
  destruct (Event.date_updated event >? Service.date_updated self);
    cbv zeta iota beta;
    case_ifs; reflexivity.
Qed.

(** The in-memory instance after the call, field by field. *)
Lemma update_from_event_self (db : DB) (self : Service.t) (event : Event.t) :
  let self' := snd (update_from_event db self event) in
  Service.date_updated self'
  = Z.max (Service.date_updated self) (Event.date_updated event)
  /\ Service.status self'
     = if Event.status event >? Service.status self then Event.status event
       else if Event.status event <? Service.status self then
              if other_event_matches db self event
              then Service.status self else Event.status event
            else Service.status self.
Proof.
  unfold update_from_event.
  rewrite (Z.gtb_ltb (Event.date_updated event)).
  destruct (Z.ltb_spec (Service.date_updated self) (Event.date_updated event));
    cbv zeta iota beta.
  - change (Service.status (Service.set_date_updated _ self))
      with (Service.status self).
    change (other_event_matches (set_services db _)
              (Service.set_date_updated (Event.date_updated event) self) event)
      with (other_event_matches db self event).
    destruct (Event.status event >? Service.status self);
      [simpl; split; [lia | reflexivity]|].
    destruct (Event.status event <? Service.status self);
      [|simpl; split; [lia | reflexivity]].
    destruct (other_event_matches db self event);
      simpl; split; try lia; reflexivity.
  - destruct (Event.status event >? Service.status self);
      [simpl; split; [lia | reflexivity]|].
    destruct (Event.status event <? Service.status self);
      [|simpl; split; [lia | reflexivity]].
    destruct (other_event_matches db self event);
      simpl; split; try lia; reflexivity.
Qed.

(** ** The database row follows the instance *)

Lemma get_service_update_hit (db : DB) (self : Service.t)
  (p : Service.t -> bool) (f : Service.t -> Service.t) :
  (forall r, Service.pk (f r) = Service.pk r) ->
  get_service db (Service.pk self) = Some self ->
  p self = true ->
  get_service
    (set_services db
       (qs_update (fun s => (Service.pk s =? Service.pk self) && p s) f
                  (services db)))
    (Service.pk self) = Some (f self).
Proof.
  intros Hf Hget Hp. unfold get_service in *. simpl.
  rewrite (find_qs_update Service.pk) by exact Hf.
  rewrite Hget. simpl. now rewrite Z.eqb_refl, Hp.
Qed.

Lemma get_service_update_miss (db : DB) (self : Service.t) (k : Z)
  (p : Service.t -> bool) (f : Service.t -> Service.t) :
  (forall r, Service.pk (f r) = Service.pk r) ->
  k <> Service.pk self ->
  get_service
    (set_services db
       (qs_update (fun s => (Service.pk s =? Service.pk self) && p s) f
                  (services db)))
    k = get_service db k.
Proof.
  intros Hf Hk. unfold get_service. simpl.
  rewrite (find_qs_update Service.pk) by exact Hf.
  destruct (find (fun r => Service.pk r =? k) (services db)) as [r|] eqn:Hr;
    [|reflexivity].
  apply find_some in Hr as [_ Hr]. apply Z.eqb_eq in Hr. simpl.
  assert (Hne : (Service.pk r =? Service.pk self) = false)
    by (apply Z.eqb_neq; congruence).
  now rewrite Hne.
Qed.

(** When the instance is the row of the database (it was just loaded), the
    row after the call is the instance after the call. *)
Lemma update_from_event_sync (db : DB) (self : Service.t) (event : Event.t) :
  get_service db (Service.pk self) = Some self ->
  get_service (fst (update_from_event db self event)) (Service.pk self)
  = Some (snd (update_from_event db self event)).
Proof.
  intros Hget. unfold update_from_event.
  assert (Hsync1 :
    let st :=
      if Event.date_updated event >? Service.date_updated self then
        (set_services db
           (qs_update
              (fun s => (Service.pk s =? Service.pk self)
                        && (Service.date_updated s <? Event.date_updated event))
              (Service.set_date_updated (Event.date_updated event))
              (services db)),
         Service.set_date_updated (Event.date_updated event) self)
      else (db, self) in
    get_service (fst st) (Service.pk self) = Some (snd st)
    /\ Service.pk (snd st) = Service.pk self).
  { destruct (Event.date_updated event >? Service.date_updated self) eqn:Hd;
      cbv zeta; simpl fst; simpl snd; [|auto].
    split; [|reflexivity].
    apply (get_service_update_hit db self
             (fun s => Service.date_updated s <? Event.date_updated event));
      auto.
    now rewrite <- Z.gtb_ltb. }
  cbv zeta in Hsync1.
  destruct (if Event.date_updated event >? Service.date_updated self
            then _ else _) as [db1 self1].
  simpl in Hsync1. destruct Hsync1 as [Hget1 Hpk1].
  rewrite <- Hpk1 in *.
  destruct (Event.status event >? Service.status self1) eqn:Hgt.
  - simpl.
    apply (get_service_update_hit db1 self1
             (fun s => Service.status s <? Event.status event)); auto.
    now rewrite <- Z.gtb_ltb.
  - destruct (Event.status event <? Service.status self1) eqn:Hlt; [|auto].
    destruct (other_event_matches db1 self1 event); [auto|]. simpl.
    apply (get_service_update_hit db1 self1
             (fun s => Service.status s >? Event.status event)); auto.
    now rewrite Z.gtb_ltb.
Qed.

(** Rows of other services are not touched. *)
Lemma update_from_event_other (db : DB) (self : Service.t) (event : Event.t)
  (k : Z) :
  k <> Service.pk self ->
  get_service (fst (update_from_event db self event)) k = get_service db k.
Proof.
  intros Hk. unfold update_from_event.
  destruct (Event.date_updated event >? Service.date_updated self);
    cbv zeta iota beta;
    case_ifs;
    simpl fst;
    repeat (rewrite get_service_update_miss; auto);
    reflexivity.
Qed.

Lemma update_from_event_rows (db : DB) (self : Service.t) (event : Event.t) :
  exists g : Service.t -> Service.t,
    services (fst (update_from_event db self event)) = map g (services db)
    /\ forall s, row_advanced event s (g s).
Proof.
  unfold update_from_event, row_advanced, qs_update.
  destruct (Event.date_updated event >? Service.date_updated self);
    cbv zeta iota beta;
    case_ifs;
    simpl fst; simpl services; rewrite ?map_map;
    first
      [ exists (fun s => s); split;
        [ now rewrite map_id | intros s; lia ]
      | eexists; (split; [reflexivity|]); intros s; simpl;
        repeat match goal with
               | |- context [if ?c then _ else _] => destruct c eqn:?
               end; simpl;
        repeat match goal with
               | H : (_ && _) = true |- _ =>
                   apply andb_true_iff in H as [? ?]
               | H : (_ <? _) = true |- _ => apply Z.ltb_lt in H
               end; lia ].
Qed.

Lemma Forall2_map_rel {A : Type} (R : A -> A -> Prop) (g : A -> A)
  (l : list A) :
  (forall x, R x (g x)) -> Forall2 R l (map g l).
Proof. intros HR. induction l; simpl; constructor; auto. Qed.

(** ** The claims on [Service.update_from_event] *)

(** The [date_updated] column of the services table after one call. *)
Lemma update_from_event_dates (db : DB) (self : Service.t)
  (event : Event.t) :
  map Service.date_updated (services (fst (update_from_event db self event)))
  = map (date_updated_after self event) (services db).
Proof.
  unfold update_from_event, qs_update, date_updated_after.
  rewrite (Z.gtb_ltb (Event.date_updated event)).
  destruct (Service.date_updated self <? Event.date_updated event);
    cbv zeta iota beta; case_ifs; simpl fst; simpl services;
    rewrite ?map_map; apply map_ext; intros s; simpl;
    destruct (Service.pk s =? Service.pk self);
    destruct (Service.date_updated s <? Event.date_updated event);
    simpl; case_ifs; reflexivity.
Qed.

(** C7: under one call of the service aggregator, the service's
    [date_updated] never decreases: it becomes the event's [date_updated]
    when that is strictly greater and is otherwise kept.  This holds of the
    instance; in the services table the keys are kept, a row changes its
    [date_updated] only if it has the key of the service, and then becomes
    the event's exactly when the instance and the row are both older than
    the event; when the instance is the row of the database, the row after
    the call is the instance after the call. *)
Theorem service_date_updated_monotone (db : DB) (self : Service.t)
  (event : Event.t) :
  let r := update_from_event db self event in
  Service.date_updated self <= Service.date_updated (snd r)
  /\ (Event.date_updated event > Service.date_updated self ->
      Service.date_updated (snd r) = Event.date_updated event)
  /\ (Event.date_updated event <= Service.date_updated self ->
      Service.date_updated (snd r) = Service.date_updated self)
  /\ Forall2 (row_advanced event) (services db) (services (fst r))
  /\ map Service.pk (services (fst r)) = map Service.pk (services db)
  /\ map Service.date_updated (services (fst r))
     = map (date_updated_after self event) (services db)
  /\ (get_service db (Service.pk self) = Some self ->
      get_service (fst r) (Service.pk self) = Some (snd r)).
Proof.
  intros r. subst r.
  destruct (update_from_event_self db self event) as [Hd _].
  destruct (update_from_event_rows db self event) as (g & Hg & HR).
  rewrite Hd. repeat apply conj; try lia.
  - rewrite Hg. now apply Forall2_map_rel.
  - rewrite Hg, map_map. apply map_ext. intros s. apply (HR s).
  - apply update_from_event_dates.
  - apply update_from_event_sync.
Qed.

Lemma service_date_updated_monotone_witness :
  map Service.date_updated
      (services
         (fst (update_from_event
                 (mkDB [Service.mk 1 0 0; Service.mk 2 0 0] [] [] [])
                 (Service.mk 1 0 0) (Event.mk 1 2 2 None None 20))))
  = [20; 0]
  /\ get_service
       (fst (update_from_event
               (mkDB [Service.mk 1 0 0; Service.mk 2 0 0] [] [] [])
               (Service.mk 1 0 0) (Event.mk 1 2 2 None None 20))) 1
     = Some (Service.mk 1 2 20).
Proof.
  destruct (service_date_updated_monotone
              (mkDB [Service.mk 1 0 0; Service.mk 2 0 0] [] [] [])
              (Service.mk 1 0 0) (Event.mk 1 2 2 None None 20))
    as (_ & _ & _ & _ & _ & Hcol & Hrow).
  split; [exact Hcol | apply Hrow; reflexivity].
Defined.

(** C4: when the triggering event's status is strictly below the service's,
    the service aggregator lowers the service's status to the event's
    exactly when no other event linked to the service still has the
    service's status; otherwise the status is left as it was.  The row of
    the database follows the instance. *)
Theorem decrease_only_when_unjustified (db : DB) (self : Service.t)
  (event : Event.t) :
  Event.status event < Service.status self ->
  let r := update_from_event db self event in
  (Service.status (snd r) = Event.status event
   <-> ~ other_event_justifies db self event)
  /\ (other_event_justifies db self event ->
      Service.status (snd r) = Service.status self)
  /\ (get_service db (Service.pk self) = Some self ->
      get_service (fst r) (Service.pk self) = Some (snd r)).
Proof.
  intros Hlt r. subst r.
  destruct (update_from_event_self db self event) as [_ Hs].
  rewrite Hs.
  assert (Hgt : (Event.status event >? Service.status self) = false)
    by (rewrite Z.gtb_ltb; apply Z.ltb_ge; lia).
  assert (Hltb : (Event.status event <? Service.status self) = true)
    by (apply Z.ltb_lt; lia).
  rewrite Hgt, Hltb.
  rewrite <- other_event_matches_spec.
  destruct (other_event_matches db self event); repeat split;
    intros; try congruence; try lia.
  - now apply update_from_event_sync.
  - now apply update_from_event_sync.
Qed.

Lemma decrease_only_when_unjustified_witness :
  Service.status
    (snd (update_from_event
            (mkDB [Service.mk 1 2 0]
                  [Event.mk 1 1 2 None None 5; Event.mk 2 2 2 None None 3]
                  [(1, 1); (2, 1)] [])
            (Service.mk 1 2 0) (Event.mk 1 1 2 None None 5))) = 2.
Proof.
  apply (decrease_only_when_unjustified
           (mkDB [Service.mk 1 2 0]
                 [Event.mk 1 1 2 None None 5; Event.mk 2 2 2 None None 3]
                 [(1, 1); (2, 1)] [])
           (Service.mk 1 2 0) (Event.mk 1 1 2 None None 5)).
  - simpl. lia.
  - exists (Event.mk 2 2 2 None None 3). simpl.
    repeat split; auto. lia.
Defined.

(** ** [get_message] *)

(** C8: the derived message is the explicit message when one is present,
    and otherwise the fixed sentence of the status, for an [Event] as for
    an [EventUpdate]. *)
Theorem get_message_spec {A : Type} `{EventBase A} (self : A) :
  (forall m, eb_message self = Some m -> m <> ""%string ->
             get_message self = m)
  /\ (no_message (eb_message self) ->
      (eb_status self = 0 ->
       get_message self = "Service is operating as expected.")
      /\ (eb_status self = 1 ->
          get_message self
          = "Experiencing some issues. Services mostly operational.")
      /\ (eb_status self = 2 ->
          get_message self = "Service is unavailable.")).
Proof.
  unfold get_message. split.
  - intros m Hm Hne. rewrite Hm. simpl.
    destruct (String.eqb_spec m ""); [contradiction | reflexivity].
  - intros Hno. apply truthy_false_iff in Hno. rewrite Hno.
    repeat split; intros Hs; rewrite Hs; reflexivity.
Qed.

Lemma get_message_spec_witness :
  get_message (Event.mk 1 1 1 None (Some "") 0)
  = "Experiencing some issues. Services mostly operational."
  /\ get_message (EventUpdate.mk 1 1 2 (Some "db down") 0) = "db down".
Proof.
  split.
  - apply (get_message_spec (Event.mk 1 1 1 None (Some "") 0)).
    + right. reflexivity.
    + reflexivity.
  - apply (get_message_spec (EventUpdate.mk 1 1 2 (Some "db down") 0)).
    + reflexivity.
    + discriminate.
Defined.

(** C9: with no explicit message and a status outside the choices 0, 1, 2
    the derived message is the empty string; the function has a value for
    every input. *)
Theorem get_message_outside_choices {A : Type} `{EventBase A} (self : A) :
  no_message (eb_message self) ->
  ~ valid_status (eb_status self) ->
  get_message self = ""%string.
Proof.
  intros Hno Hs. unfold get_message.
  apply truthy_false_iff in Hno. rewrite Hno.
  unfold valid_status in Hs. simpl in Hs.
  destruct (Z.eqb_spec (eb_status self) 0); [exfalso; apply Hs; auto|].
  destruct (Z.eqb_spec (eb_status self) 1); [exfalso; apply Hs; auto|].
  destruct (Z.eqb_spec (eb_status self) 2); [exfalso; apply Hs; auto|].
  reflexivity.
Qed.

Lemma get_message_outside_choices_witness :
  get_message (EventUpdate.mk 1 1 7 None 0) = ""%string.
Proof.
  apply (get_message_outside_choices (EventUpdate.mk 1 1 7 None 0)).
  - left. reflexivity.
  - unfold valid_status. simpl. intros [H|[H|[H|[]]]]; discriminate H.
Defined.

(** ** [handle_event_m2m_save] *)

Lemma pre_is_not_post (action : string) :
  prefix "pre_" action = true -> prefix "post_" action = false.
Proof.
  destruct action as [|b [|c rest]]; cbn [prefix]; try discriminate.
  - destruct (ascii_dec "p"%char b); intros; reflexivity.
  - destruct (ascii_dec "p"%char b); [|reflexivity].
    destruct (ascii_dec "r"%char c) as [Hr|]; [|discriminate].
    subst c. intros _.
    destruct (ascii_dec "o"%char "r"%char) as [Ho|]; [discriminate Ho|].
    reflexivity.
Qed.

Lemma handle_event_m2m_save_not_post (db : DB) (model : Model)
  (instance : instance_of model) (action : string) (reverse : bool)
  (pk_set : option (list Z)) :
  prefix "post_" action = false ->
  handle_event_m2m_save db model instance action reverse pk_set
  = (db, instance).
Proof. intros Hp. unfold handle_event_m2m_save. now rewrite Hp. Qed.

Lemma handle_event_m2m_save_no_pks (db : DB) (model : Model)
  (instance : instance_of model) (action : string) (reverse : bool)
  (pk_set : option (list Z)) :
  pk_set_empty pk_set = true ->
  handle_event_m2m_save db model instance action reverse pk_set
  = (db, instance).
Proof.
  intros Hp. unfold handle_event_m2m_save. rewrite Hp.
  now destruct (negb (prefix "post_" action)).
Qed.

(** A [post_] notification with keys runs the loop. *)
Lemma handle_event_m2m_save_forward (db : DB) (instance : Event.t)
  (action : string) (reverse : bool) (pks : list Z) :
  prefix "post_" action = true -> pks <> [] ->
  handle_event_m2m_save db ModelService instance action reverse (Some pks)
  = (fold_left
       (fun db service => fst (update_from_event db service instance))
       (filter (fun s => pk_in (Service.pk s) pks) (services db)) db,
     instance).
Proof.
  intros Hp Hne. unfold handle_event_m2m_save. rewrite Hp.
  destruct pks; [contradiction | reflexivity].
Qed.

Lemma handle_event_m2m_save_reverse (db : DB) (instance : Service.t)
  (action : string) (reverse : bool) (pks : list Z) :
  prefix "post_" action = true -> pks <> [] ->
  handle_event_m2m_save db ModelEvent instance action reverse (Some pks)
  = fold_left
      (fun st event => update_from_event (fst st) (snd st) event)
      (filter (fun e => pk_in (Event.pk e) pks) (events db))
      (db, instance).
Proof.
  intros Hp Hne. unfold handle_event_m2m_save. rewrite Hp.
  destruct pks; [contradiction | reflexivity].
Qed.

(** C10: a notification whose [pk_set] is absent or empty, or whose action
    is a [pre_] phase, changes nothing: the database, hence every service's
    [status] and [date_updated], and the instance are returned as they
    were. *)
Theorem m2m_save_skips_pre_and_empty (db : DB) (model : Model)
  (instance : instance_of model) (action : string) (reverse : bool)
  (pk_set : option (list Z)) :
  pk_set = None \/ pk_set = Some [] \/ prefix "pre_" action = true ->
  handle_event_m2m_save db model instance action reverse pk_set
  = (db, instance).
Proof.
  intros [Hc|[Hc|Hc]].
  - subst pk_set. now apply handle_event_m2m_save_no_pks.
  - subst pk_set. now apply handle_event_m2m_save_no_pks.
  - apply handle_event_m2m_save_not_post. now apply pre_is_not_post.
Qed.

Lemma m2m_save_skips_pre_and_empty_witness :
  handle_event_m2m_save Scenario.db1 ModelEvent Scenario.db_service
                        "post_clear" true None
  = (Scenario.db1, Scenario.db_service)
  /\ handle_event_m2m_save Scenario.db1 ModelService
                           (Event.mk 1 2 2 None None 20)
                           "pre_add" false (Some [1])
     = (Scenario.db1, Event.mk 1 2 2 None None 20).
Proof.
  split.
  - apply (m2m_save_skips_pre_and_empty Scenario.db1 ModelEvent
             Scenario.db_service "post_clear" true None).
    left. reflexivity.
  - apply (m2m_save_skips_pre_and_empty Scenario.db1 ModelService
             (Event.mk 1 2 2 None None 20) "pre_add" false (Some [1])).
    right. right. reflexivity.
Defined.

(** Clearing all the links of an event leaves every service as it was. *)
Lemma clear_event_links_services (db : DB) (event : Event.t) :
  services (clear_event_links db event) = services db.
Proof. reflexivity. Qed.

(** ** Unique primary keys: [pk__in] of one key selects one row *)




(** ** Linking an event to a service *)

(** Adding a link that exists changes nothing. *)
Lemma link_event_existing (db : DB) (event : Event.t) (spk : Z) :
  linked db (Event.pk event) spk = true ->
  link_event db event spk = db.
Proof.
  intros Hl. unfold link_event. rewrite Hl.
  rewrite !handle_event_m2m_save_no_pks by reflexivity.
  destruct db as [ss es ls us]. cbn. now rewrite app_nil_r.
Qed.

Lemma link_event_reverse_existing (db : DB) (service : Service.t) (epk : Z) :
  linked db epk (Service.pk service) = true ->
  link_event_reverse db service epk = (db, service).
Proof.
  intros Hl. unfold link_event_reverse. rewrite Hl.
  rewrite !handle_event_m2m_save_no_pks by reflexivity.
  destruct db as [ss es ls us]. cbn. now rewrite app_nil_r.
Qed.



(** ** The event aggregator *)

Lemma fold_update_from_event_frame (event : Event.t) (l : list Service.t)
  (db : DB) :
  let db' := fold_left
               (fun db service => fst (update_from_event db service event))
               l db in
  events db' = events db
  /\ event_services db' = event_services db
  /\ eventupdates db' = eventupdates db.
Proof.
  revert db. induction l as [|s l IH]; intros db; simpl; [auto|].
  destruct (IH (fst (update_from_event db s event))) as (H1 & H2 & H3).
  destruct (update_from_event_frame db s event) as (F1 & F2 & F3).
  simpl in *. repeat split; congruence.
Qed.

Lemma handle_event_save_frame (db : DB) (instance : Event.t) :
  events (handle_event_save db instance) = events db
  /\ event_services (handle_event_save db instance) = event_services db
  /\ eventupdates (handle_event_save db instance) = eventupdates db.
Proof. apply fold_update_from_event_frame. Qed.

(** The query of the second branch of [is_latest] compares the [event]
    column of an update of [event] with [event.pk]: whenever the event has
    an update at all the answer is [True], so the handler never finds an
    update not to be the latest. *)
Lemma insert_desc_Forall (P : EventUpdate.t -> Prop) (u : EventUpdate.t)
  (l : list EventUpdate.t) :
  P u -> Forall P l -> Forall P (insert_desc u l).
Proof.
  intros Hu Hl. induction Hl as [|v l Hv Hl IH]; simpl.
  - constructor; auto.
  - destruct (EventUpdate.date_created v <? EventUpdate.date_created u);
      repeat constructor; auto.
Qed.

Lemma insert_desc_not_nil (u : EventUpdate.t) (l : list EventUpdate.t) :
  insert_desc u l <> [].
Proof.
  destruct l as [|v l]; simpl; [discriminate|].
  destruct (EventUpdate.date_created v <? EventUpdate.date_created u);
    discriminate.
Qed.

Lemma order_by_date_created_desc_Forall (P : EventUpdate.t -> Prop)
  (l : list EventUpdate.t) :
  Forall P l -> Forall P (order_by_date_created_desc l).
Proof.
  intros Hl. induction Hl as [|v l Hv Hl IH]; simpl; [constructor|].
  now apply insert_desc_Forall.
Qed.

Lemma is_latest_always (db : DB) (event : Event.t) (created : bool) :
  created = true
  \/ (exists u, In u (eventupdates db)
                /\ EventUpdate.event u = Event.pk event) ->
  is_latest db event created = Some true.
Proof.
  intros Hc. unfold is_latest. destruct created; [reflexivity|].
  destruct Hc as [Hc|(u & Hin & Hu)]; [discriminate|].
  set (l := filter (fun u => EventUpdate.event u =? Event.pk event)
                   (eventupdates db)).
  assert (Hall : Forall (fun v => EventUpdate.event v = Event.pk event)
                        (order_by_date_created_desc l)).
  { apply order_by_date_created_desc_Forall, Forall_forall.
    intros v Hv. apply filter_In in Hv as [_ Hv]. now apply Z.eqb_eq. }
  assert (Hne : order_by_date_created_desc l <> []).
  { assert (Hl : In u l)
      by (apply filter_In; split; [exact Hin | now apply Z.eqb_eq]).
    destruct l as [|v l']; [contradiction|]. simpl.
    apply insert_desc_not_nil. }
  destruct (order_by_date_created_desc l) as [|x xs]; [contradiction|].
  simpl. inversion Hall as [|? ? Hx _]; subst.
  rewrite Hx, Z.eqb_refl. reflexivity.
Qed.

Lemma is_latest_not_false (db : DB) (event : Event.t) (created : bool) :
  is_latest db event created <> Some false.
Proof.
  unfold is_latest. destruct created; [discriminate|].
  set (l := filter (fun u => EventUpdate.event u =? Event.pk event)
                   (eventupdates db)).
  assert (Hall : Forall (fun v => EventUpdate.event v = Event.pk event)
                        (order_by_date_created_desc l)).
  { apply order_by_date_created_desc_Forall, Forall_forall.
    intros v Hv. apply filter_In in Hv as [_ Hv]. now apply Z.eqb_eq. }
  destruct (order_by_date_created_desc l) as [|x xs]; [discriminate|].
  simpl. inversion Hall as [|? ? Hx _]; subst.
  rewrite Hx, Z.eqb_refl. discriminate.
Qed.

Lemma get_event_pk (db : DB) (pk : Z) (e : Event.t) :
  get_event db pk = Some e -> Event.pk e = pk /\ In e (events db).
Proof.
  unfold get_event. intros H. apply find_some in H as [Hin Hpk].
  split; [now apply Z.eqb_eq | exact Hin].
Qed.

(** The rows of the events table after the handler has worked on the object
    [e]: the rows with the key of [e] are rewritten, the others are kept. *)
Lemma get_event_after_update (db : DB) (e : Event.t) (kw : UpdateKwargs)
  (k : Z) :
  get_event
    (handle_event_save
       (set_events db
          (qs_update (fun e0 => Event.pk e0 =? Event.pk e) (setattrs kw)
                     (events db)))
       (setattrs kw e)) k
  = option_map (fun r => if Event.pk r =? Event.pk e then setattrs kw r else r)
               (get_event db k).
Proof.
  unfold get_event.
  destruct (handle_event_save_frame
              (set_events db
                 (qs_update (fun e0 => Event.pk e0 =? Event.pk e)
                            (setattrs kw) (events db)))
              (setattrs kw e)) as [Hev _].
  rewrite Hev. cbn [events set_events].
  now rewrite (find_qs_update Event.pk) by reflexivity.
Qed.

(** When the handler returns, it has got hold of an object [obj], rewritten
    it, and rewritten the rows with its key. *)
Lemma handle_update_save_some (db db' : DB) (instance : EventUpdate.t)
  (event_cache : option Event.t) (created : bool) (obj' : Event.t) :
  handle_update_save db instance event_cache created = Some (db', obj') ->
  exists obj,
    instance_event db instance event_cache = Some obj
    /\ obj' = aggregate_with obj obj instance
    /\ db' = handle_event_save
               (set_events db
                  (qs_update (fun e0 => Event.pk e0 =? Event.pk obj)
                             (setattrs (build_update_kwargs obj instance))
                             (events db)))
               (setattrs (build_update_kwargs obj instance) obj).
Proof.
  unfold handle_update_save.
  destruct (instance_event db instance event_cache) as [obj|]; [|discriminate].
  pose proof (is_latest_not_false db obj created) as Hnf.
  destruct (is_latest db obj created) as [[|]|]; try discriminate.
  - intros Hs. injection Hs as <- <-. now exists obj.
  - congruence.
Qed.

Lemma handle_update_save_latest (db : DB) (instance : EventUpdate.t)
  (event_cache : option Event.t) (created : bool) (obj : Event.t) :
  instance_event db instance event_cache = Some obj ->
  is_latest db obj created = Some true ->
  handle_update_save db instance event_cache created
  = Some (handle_event_save
            (set_events db
               (qs_update (fun e0 => Event.pk e0 =? Event.pk obj)
                          (setattrs (build_update_kwargs obj instance))
                          (events db)))
            (setattrs (build_update_kwargs obj instance) obj),
          aggregate_with obj obj instance).
Proof.
  intros Hi Hl. unfold handle_update_save. now rewrite Hi, Hl.
Qed.

Lemma cache_agrees_names {A : Type} (f : Event.t -> A) (db : DB)
  (u : EventUpdate.t) (c : option Event.t) :
  cache_agrees f db u c -> cache_names_event u c.
Proof. destruct c; simpl; [intros [H _]; exact H | auto]. Qed.

Lemma cache_agrees_field {A : Type} (f : Event.t -> A) (db : DB)
  (u : EventUpdate.t) (c : option Event.t) (row : Event.t) :
  cache_agrees f db u c ->
  get_event db (EventUpdate.event u) = Some row ->
  f (cached_or c row) = f row.
Proof.
  destruct c as [ev|]; simpl; [|reflexivity].
  intros [_ Hf] Hr. rewrite Hr in Hf. simpl in Hf. congruence.
Qed.

(** One append to an existing event: the handler works on the attached
    object, or on the row when there is none, and never fails. *)
Lemma append_update_row (db : DB) (pk : Z) (row : Event.t)
  (u : EventUpdate.t) (c : option Event.t) :
  get_event db pk = Some row ->
  EventUpdate.event u = pk ->
  cache_names_event u c ->
  exists db',
    append_update db u c
    = Some (db', aggregate_with (cached_or c row) (cached_or c row) u)
    /\ get_event db' pk = Some (aggregate_with (cached_or c row) row u).
Proof.
  intros He Hu Hc. destruct (get_event_pk _ _ _ He) as [Hpk _].
  set (o := cached_or c row).
  assert (Ho : Event.pk o = pk) by (subst o; destruct c; simpl in *; congruence).
  unfold append_update.
  rewrite (handle_update_save_latest _ u c true o).
  - eexists. split; [reflexivity|].
    rewrite get_event_after_update.
    change (get_event (set_eventupdates db (eventupdates db ++ [u])) pk)
      with (get_event db pk).
    rewrite He. cbn [option_map]. rewrite Hpk, Ho, Z.eqb_refl. reflexivity.
  - subst o. destruct c; [reflexivity|]. simpl.
    change (get_event (set_eventupdates db (eventupdates db ++ [u]))
                      (EventUpdate.event u))
      with (get_event db (EventUpdate.event u)).
    now rewrite Hu.
  - reflexivity.
Qed.

Lemma append_updates_app (db : DB)
  (us vs : list (EventUpdate.t * option Event.t)) :
  append_updates db (us ++ vs)
  = match append_updates db us with
    | Some db' => append_updates db' vs
    | None => None
    end.
Proof.
  revert db. induction us as [|[u c] us IH]; intros db; simpl; [reflexivity|].
  destruct (append_update db u c) as [[db1 o1]|]; [apply IH | reflexivity].
Qed.

(** A run of appends to one existing event never fails and keeps the row
    of the event. *)
Lemma append_updates_rows (db : DB) (pk : Z) (row : Event.t)
  (us : list (EventUpdate.t * option Event.t)) :
  get_event db pk = Some row ->
  (forall v cv, In (v, cv) us ->
                EventUpdate.event v = pk /\ cache_names_event v cv) ->
  exists db' row', append_updates db us = Some db'
                   /\ get_event db' pk = Some row'.
Proof.
  revert db row. induction us as [|[u c] us IH]; intros db row He Hus; simpl.
  - exists db, row. auto.
  - destruct (Hus u c (or_introl eq_refl)) as [Hu Hc].
    destruct (append_update_row db pk row u c He Hu Hc) as (db1 & Hdb1 & He1).
    rewrite Hdb1. apply (IH db1 _ He1).
    intros v cv Hv. apply (Hus v cv). now right.
Qed.

(** Along a run whose attached objects agree with the row on [f], a
    property of the row that each step keeps is kept. *)
Lemma append_updates_invariant {A : Type} (f : Event.t -> A)
  (Inv : Event.t -> Prop) (Q : EventUpdate.t -> Prop) (db : DB) (pk : Z)
  (row : Event.t) (us : list (EventUpdate.t * option Event.t)) :
  (forall o r v, f o = f r -> Inv r -> Q v -> Inv (aggregate_with o r v)) ->
  get_event db pk = Some row ->
  Inv row ->
  (forall v cv, In (v, cv) us -> EventUpdate.event v = pk /\ Q v) ->
  agreeing_run f db us ->
  exists db' row', append_updates db us = Some db'
                   /\ get_event db' pk = Some row'
                   /\ Inv row'.
Proof.
  intros Hstep. revert db row.
  induction us as [|[u c] us IH]; intros db row He Hinv Hus Hrun.
  - exists db, row. simpl. auto.
  - destruct (Hus u c (or_introl eq_refl)) as [Hu HQ].
    cbn [agreeing_run] in Hrun. destruct Hrun as [Hag Hrun].
    destruct (append_update_row db pk row u c He Hu
                (cache_agrees_names f db u c Hag)) as (db1 & Hdb1 & He1).
    rewrite Hdb1 in Hrun. cbn [append_updates]. rewrite Hdb1.
    apply (IH db1 _ He1); auto.
    + apply Hstep; auto.
      apply (cache_agrees_field f db u c row Hag). now rewrite Hu.
    + intros v cv Hv. apply (Hus v cv). now right.
Qed.

Lemma agreeing_run_app_l {A : Type} (f : Event.t -> A) (db : DB)
  (us vs : list (EventUpdate.t * option Event.t)) :
  agreeing_run f db (us ++ vs) -> agreeing_run f db us.
Proof.
  revert db. induction us as [|[u c] us IH]; intros db; simpl; [auto|].
  intros [Hag Hrun]. split; [exact Hag|].
  destruct (append_update db u c) as [[db1 o1]|]; auto.
Qed.

Lemma max_status_nonneg (us : list EventUpdate.t) : 0 <= max_status us.
Proof.
  unfold max_status. induction us as [|u us IH]; simpl; lia.
Qed.

Lemma max_status_app (us vs : list EventUpdate.t) :
  max_status (us ++ vs) = Z.max (max_status us) (max_status vs).
Proof.
  unfold max_status. induction us as [|u us IH]; simpl.
  - pose proof (max_status_nonneg vs) as H. unfold max_status in H. lia.
  - rewrite map_app in *. lia.
Qed.

Lemma aggregate_with_peak (o row : Event.t) (u : EventUpdate.t) :
  Event.peak_status o = Event.peak_status row ->
  0 <= EventUpdate.status u ->
  Event.peak_status (aggregate_with o row u)
  = Z.max (Event.peak_status row) (EventUpdate.status u).
Proof.
  intros Ho Hu. unfold aggregate_with, build_update_kwargs, setattrs.
  cbn [kw_peak_status Event.peak_status]. rewrite Ho.
  destruct (Z.eqb_spec (Event.peak_status row) 0) as [H0|H0]; simpl.
  - lia.
  - destruct (Z.ltb_spec (Event.peak_status row) (EventUpdate.status u)); lia.
Qed.

(** Along a run whose attached objects carry the row's [peak_status], the
    peak of the row is the running maximum. *)
Lemma append_updates_peak (db : DB) (pk : Z) (row : Event.t)
  (us : list (EventUpdate.t * option Event.t)) :
  get_event db pk = Some row ->
  0 <= Event.peak_status row ->
  (forall v cv, In (v, cv) us ->
                EventUpdate.event v = pk /\ 0 <= EventUpdate.status v) ->
  agreeing_run Event.peak_status db us ->
  exists db' row',
    append_updates db us = Some db'
    /\ get_event db' pk = Some row'
    /\ Event.peak_status row'
       = Z.max (Event.peak_status row) (max_status (map fst us)).
Proof.
  revert db row. induction us as [|[u c] us IH]; intros db row He Hp Hus Hrun.
  - exists db, row. unfold max_status. simpl. repeat split; auto. lia.
  - destruct (Hus u c (or_introl eq_refl)) as [Hu Hs].
    cbn [agreeing_run] in Hrun. destruct Hrun as [Hag Hrun].
    destruct (append_update_row db pk row u c He Hu
                (cache_agrees_names _ db u c Hag)) as (db1 & Hdb1 & He1).
    rewrite Hdb1 in Hrun. cbn [append_updates]. rewrite Hdb1.
    assert (Hpk1 : Event.peak_status (aggregate_with (cached_or c row) row u)
                   = Z.max (Event.peak_status row) (EventUpdate.status u)).
    { apply aggregate_with_peak; [|exact Hs].
      apply (cache_agrees_field Event.peak_status db u c row Hag).
      now rewrite Hu. }
    destruct (IH db1 _ He1) as (db' & row' & Hdb' & He' & Hp').
    + rewrite Hpk1. lia.
    + intros v cv Hv. apply (Hus v cv). now right.
    + exact Hrun.
    + exists db', row'. split; [exact Hdb'|]. split; [exact He'|].
      rewrite Hp', Hpk1. cbn [map fst].
      change (max_status (u :: map fst us))
        with (Z.max (EventUpdate.status u) (max_status (map fst us))).
      lia.
Qed.

Lemma valid_status_range (s : Z) : valid_status s -> 0 <= s <= 2.
Proof.
  unfold valid_status. simpl. intros [H|[H|[H|[]]]]; lia.
Qed.

(** C3, as the code has it: along every sequence of appends to one event
    in which the event object attached to each update, if any, carries the
    [peak_status] of the row at the time, [peak_status] never decreases
    and, after each append, is the greatest status appended so far (for an
    event that starts at the default [peak_status] 0; in general the
    greater of that and the starting value). *)
Theorem peak_status_is_running_max (db : DB) (pk : Z) (e : Event.t)
  (us1 us2 : list (EventUpdate.t * option Event.t)) :
  get_event db pk = Some e ->
  0 <= Event.peak_status e ->
  (forall v cv, In (v, cv) (us1 ++ us2) ->
                EventUpdate.event v = pk
                /\ valid_status (EventUpdate.status v)) ->
  agreeing_run Event.peak_status db (us1 ++ us2) ->
  exists db1 db2 e1 e2,
    append_updates db us1 = Some db1
    /\ append_updates db (us1 ++ us2) = Some db2
    /\ get_event db1 pk = Some e1
    /\ get_event db2 pk = Some e2
    /\ Event.peak_status e <= Event.peak_status e1
    /\ Event.peak_status e1 <= Event.peak_status e2
    /\ Event.peak_status e1
       = Z.max (Event.peak_status e) (max_status (map fst us1))
    /\ Event.peak_status e2
       = Z.max (Event.peak_status e) (max_status (map fst (us1 ++ us2)))
    /\ (Event.peak_status e = 0 ->
        Event.peak_status e1 = max_status (map fst us1)
        /\ Event.peak_status e2 = max_status (map fst (us1 ++ us2))).
Proof.
  intros He Hp Hus Hrun.
  assert (H1 : forall v cv, In (v, cv) us1 ->
                 EventUpdate.event v = pk /\ 0 <= EventUpdate.status v).
  { intros v cv Hv.
    destruct (Hus v cv) as [Hv1 Hv2]; [apply in_or_app; now left|].
    split; [exact Hv1 | now apply valid_status_range]. }
  assert (H12 : forall v cv, In (v, cv) (us1 ++ us2) ->
                  EventUpdate.event v = pk /\ 0 <= EventUpdate.status v).
  { intros v cv Hv. destruct (Hus v cv Hv) as [Hv1 Hv2].
    split; [exact Hv1 | now apply valid_status_range]. }
  destruct (append_updates_peak db pk e us1 He Hp H1
              (agreeing_run_app_l _ db us1 us2 Hrun))
    as (db1 & e1 & Hdb1 & He1 & Hp1).
  destruct (append_updates_peak db pk e (us1 ++ us2) He Hp H12 Hrun)
    as (db2 & e2 & Hdb2 & He2 & Hp2).
  exists db1, db2, e1, e2.
  rewrite Hp1, Hp2, map_app, max_status_app.
  pose proof (max_status_nonneg (map fst us1)).
  pose proof (max_status_nonneg (map fst us2)).
  repeat apply conj; auto; lia.
Qed.

Lemma peak_status_is_running_max_witness :
  exists db1 db2 e1 e2,
    append_updates Scenario.db1 [(Scenario.u1, None)] = Some db1
    /\ append_updates Scenario.db1
         ([(Scenario.u1, None)]
          ++ [(Scenario.u2,
               Some (Event.mk 1 2 2 (Some "db down") (Some "db down") 20))])
       = Some db2
    /\ get_event db1 1 = Some e1
    /\ get_event db2 1 = Some e2
    /\ Event.peak_status e1 = 2
    /\ Event.peak_status e2 = 2.
Proof.
  destruct (peak_status_is_running_max Scenario.db1 1 Scenario.E1
              [(Scenario.u1, None)]
              [(Scenario.u2,
                Some (Event.mk 1 2 2 (Some "db down") (Some "db down") 20))])
    as (db1 & db2 & e1 & e2 & A1 & A2 & G1 & G2 & _ & _ & P1 & P2 & _).
  - reflexivity.
  - simpl. lia.
  - unfold valid_status. simpl.
    intros v cv [H|[H|[]]]; injection H as <- <-; simpl; auto.
  - simpl. repeat split; reflexivity.
  - exists db1, db2, e1, e2. repeat split; assumption.
Defined.

(** C3 as stated fails: the second update comes with the event object as it
    was read before the first append, whose [peak_status] is still 0; the
    handler takes the peak from that object and writes 1 over the 2 of the
    row. *)
Lemma stale_object_lowers_peak :
  exists db1 o1 db2 o2 e1 e2,
    append_update Scenario.db1 Scenario.u1 None = Some (db1, o1)
    /\ append_update db1 Scenario.u2 (Some Scenario.E1) = Some (db2, o2)
    /\ get_event Scenario.db1 1 = Some Scenario.E1
    /\ get_event db1 1 = Some e1
    /\ get_event db2 1 = Some e2
    /\ Event.peak_status e1 = 2
    /\ Event.peak_status e2 = 1
    /\ Event.peak_status e2 < Event.peak_status e1
    /\ Event.peak_status e2 <> max_status [Scenario.u1; Scenario.u2].
Proof.
  do 6 eexists.
  split; [reflexivity|]. split; [reflexivity|]. split; [reflexivity|].
  split; [reflexivity|]. split; [reflexivity|].
  repeat split; simpl; try lia; discriminate.
Qed.

(** Along a chronological sequence the update with the greatest creation
    timestamp is the one appended last. *)
Lemma latest_update_chronological (us : list EventUpdate.t)
  (u : EventUpdate.t) :
  chronological (us ++ [u]) -> latest_update (us ++ [u]) = Some u.
Proof.
  induction us as [|v us IH]; simpl; [reflexivity|].
  intros [Hv Hc]. rewrite (IH Hc).
  assert (Hle : EventUpdate.date_created v <= EventUpdate.date_created u).
  { apply Hv, in_or_app. right. now left. }
  rewrite Z.gtb_ltb.
  destruct (Z.ltb_spec (EventUpdate.date_created u)
                       (EventUpdate.date_created v)); [lia | reflexivity].
Qed.

(** C1, as the code has it: after each append the event carries the status,
    the message and the timestamp of the update appended last, whatever the
    timestamps and whatever event objects are attached to the updates;
    when creation timestamps never go back along the appends, that update
    is the one with the greatest creation timestamp. *)
Theorem status_follows_last_append (db : DB) (pk : Z) (e : Event.t)
  (us : list (EventUpdate.t * option Event.t)) (u : EventUpdate.t)
  (c : option Event.t) :
  get_event db pk = Some e ->
  (forall v cv, In (v, cv) (us ++ [(u, c)]) ->
                EventUpdate.event v = pk /\ cache_names_event v cv) ->
  exists db' e',
    append_updates db (us ++ [(u, c)]) = Some db'
    /\ get_event db' pk = Some e'
    /\ Event.status e' = EventUpdate.status u
    /\ Event.message e' = EventUpdate.message u
    /\ Event.date_updated e' = EventUpdate.date_created u
    /\ (chronological (map fst (us ++ [(u, c)])) ->
        option_map EventUpdate.status
                   (latest_update (map fst (us ++ [(u, c)])))
        = Some (Event.status e')).
Proof.
  intros He Hus.
  destruct (append_updates_rows db pk e us He) as (db1 & e1 & Hdb1 & He1).
  { intros v cv Hv. apply (Hus v cv), in_or_app. now left. }
  destruct (Hus u c) as [Hu Hc]; [apply in_or_app; right; now left|].
  destruct (append_update_row db1 pk e1 u c He1 Hu Hc) as (db' & Hdb' & He').
  exists db', (aggregate_with (cached_or c e1) e1 u).
  rewrite append_updates_app, Hdb1. cbn [append_updates]. rewrite Hdb'.
  repeat apply conj; auto.
  rewrite map_app. cbn [map fst].
  intros Hc'. now rewrite latest_update_chronological.
Qed.

Lemma status_follows_last_append_witness :
  exists db' e',
    append_updates Scenario.db1
      ([(Scenario.u1, None)] ++ [(Scenario.u2, Some Scenario.E1)]) = Some db'
    /\ get_event db' 1 = Some e'
    /\ Event.status e' = 1.
Proof.
  destruct (status_follows_last_append Scenario.db1 1 Scenario.E1
              [(Scenario.u1, None)] Scenario.u2 (Some Scenario.E1))
    as (db' & e' & A & G & S & _).
  - reflexivity.
  - intros v cv [H|[H|[]]]; injection H as <- <-; split; reflexivity.
  - exists db', e'. repeat split; assumption.
Defined.

(** C1 as stated fails: [early] is appended after [late] with a smaller
    creation timestamp; [late] remains the update with the greatest
    timestamp, yet the event takes the status of [early], and its
    aggregate fields change. *)
Lemma backdated_update_overwrites_status :
  exists db1 o1 db2 o2 e1 e2,
    append_update Scenario.db1 Examples.late None = Some (db1, o1)
    /\ append_update db1 Examples.early None = Some (db2, o2)
    /\ get_event db1 1 = Some e1
    /\ get_event db2 1 = Some e2
    /\ EventUpdate.date_created Examples.early
       < EventUpdate.date_created Examples.late
    /\ latest_update [Examples.late; Examples.early] = Some Examples.late
    /\ Event.status e2 <> EventUpdate.status Examples.late
    /\ Event.status e2 <> Event.status e1
    /\ Event.message e2 <> Event.message e1
    /\ Event.date_updated e2 <> Event.date_updated e1.
Proof.
  do 6 eexists.
  split; [reflexivity|]. split; [reflexivity|].
  split; [reflexivity|]. split; [reflexivity|].
  repeat split; simpl; try lia; discriminate.
Qed.

(** ** The description of an event *)

Lemma aggregate_with_description_kept (o row : Event.t) (u : EventUpdate.t) :
  Event.description o = Event.description row ->
  truthy (Event.description row) = true ->
  Event.description (aggregate_with o row u) = Event.description row.
Proof.
  intros Ho Ht. unfold aggregate_with, build_update_kwargs, setattrs.
  cbn [kw_description Event.description]. now rewrite Ho, Ht.
Qed.

Lemma aggregate_with_description_filled (o row : Event.t)
  (u : EventUpdate.t) :
  Event.description o = Event.description row ->
  truthy (Event.description row) = false ->
  Event.description (aggregate_with o row u) = EventUpdate.message u.
Proof.
  intros Ho Ht. unfold aggregate_with, build_update_kwargs, setattrs.
  cbn [kw_description Event.description]. now rewrite Ho, Ht.
Qed.

(** C5, as the code has it: an append writes the description exactly when
    the event object it works on has it unset or empty, and gives it the
    update's message.  Along appends in which the object attached to each
    update, if any, carries the description of the row at the time, a
    description that is not empty is never changed by any later append; so
    the first update fills an unset description for good as soon as its
    message is not empty. *)
Theorem description_kept_once_nonempty (db : DB) (pk : Z) (e : Event.t)
  (u : EventUpdate.t) (c : option Event.t)
  (us : list (EventUpdate.t * option Event.t)) :
  get_event db pk = Some e ->
  (forall v cv, In (v, cv) ((u, c) :: us) -> EventUpdate.event v = pk) ->
  agreeing_run Event.description db ((u, c) :: us) ->
  exists db1 o1 e1 db' e',
    append_update db u c = Some (db1, o1)
    /\ get_event db1 pk = Some e1
    /\ append_updates db1 us = Some db'
    /\ get_event db' pk = Some e'
    /\ (truthy (Event.description e) = true ->
        kw_description (build_update_kwargs (cached_or c e) u) = None
        /\ Event.description e1 = Event.description e
        /\ Event.description e' = Event.description e)
    /\ (no_message (Event.description e) ->
        kw_description (build_update_kwargs (cached_or c e) u)
        = Some (EventUpdate.message u)
        /\ Event.description e1 = EventUpdate.message u
        /\ (truthy (EventUpdate.message u) = true ->
            Event.description e' = EventUpdate.message u)).
Proof.
  intros He Hus Hrun.
  destruct (Hus u c (or_introl eq_refl)) as [].
  cbn [agreeing_run] in Hrun. destruct Hrun as [Hag Hrun].
  destruct (append_update_row db (EventUpdate.event u) e u c He eq_refl
              (cache_agrees_names _ db u c Hag)) as (db1 & Hdb1 & He1).
  rewrite Hdb1 in Hrun.
  assert (Hd : Event.description (cached_or c e) = Event.description e)
    by (apply (cache_agrees_field Event.description db u c e Hag He)).
  set (e1 := aggregate_with (cached_or c e) e u) in *.
  destruct (append_updates_invariant Event.description
              (fun r => truthy (Event.description e1) = true ->
                        Event.description r = Event.description e1)
              (fun _ => True) db1 (EventUpdate.event u) e1 us)
    as (db' & e' & Hdb' & He' & Hinv); auto.
  { intros o r v Ho Hr _ Ht. rewrite <- (Hr Ht).
    apply aggregate_with_description_kept; [exact Ho|].
    now rewrite (Hr Ht). }
  { intros v cv Hv. split; [|exact I]. apply (Hus v cv). now right. }
  exists db1, (aggregate_with (cached_or c e) (cached_or c e) u), e1, db', e'.
  split; [exact Hdb1|]. split; [exact He1|].
  split; [exact Hdb'|]. split; [exact He'|].
  split.
  - intros Ht.
    assert (H1 : Event.description e1 = Event.description e)
      by (now apply aggregate_with_description_kept).
    split; [|split].
    + unfold build_update_kwargs. cbn [kw_description]. now rewrite Hd, Ht.
    + exact H1.
    + rewrite Hinv; [exact H1 | now rewrite H1].
  - intros Hno. apply truthy_false_iff in Hno.
    assert (H1 : Event.description e1 = EventUpdate.message u)
      by (now apply aggregate_with_description_filled).
    split; [|split].
    + unfold build_update_kwargs. cbn [kw_description]. now rewrite Hd, Hno.
    + exact H1.
    + intros Hm. rewrite Hinv; [exact H1 | now rewrite H1].
Qed.

Lemma description_kept_once_nonempty_witness :
  exists db1 o1 e1 db' e',
    append_update Scenario.db1 Scenario.u1 (Some Scenario.E1) = Some (db1, o1)
    /\ get_event db1 1 = Some e1
    /\ append_updates db1 [(Scenario.u2, None)] = Some db'
    /\ get_event db' 1 = Some e'
    /\ Event.description e1 = Some "db down"
    /\ Event.description e' = Some "db down".
Proof.
  destruct (description_kept_once_nonempty Scenario.db1 1 Scenario.E1
              Scenario.u1 (Some Scenario.E1) [(Scenario.u2, None)])
    as (db1 & o1 & e1 & db' & e' & A1 & G1 & A2 & G2 & _ & Hfill).
  - reflexivity.
  - intros v cv [H|[H|[]]]; injection H as <- <-; reflexivity.
  - simpl. repeat split; reflexivity.
  - destruct Hfill as (_ & D1 & D2); [left; reflexivity|].
    exists db1, o1, e1, db', e'. repeat split; auto.
Defined.

(** C5 as stated fails: the first update carries a blank message, so the
    description it writes is blank, and the second update writes the
    description again, over what the first one wrote. *)
Lemma blank_first_message_description_rewritten :
  exists db1 o1 db2 o2 e0 e1 e2,
    get_event Scenario.db1 1 = Some e0
    /\ Event.description e0 = None
    /\ append_update Scenario.db1 Examples.blank None = Some (db1, o1)
    /\ get_event db1 1 = Some e1
    /\ append_update db1 Examples.second None = Some (db2, o2)
    /\ get_event db2 1 = Some e2
    /\ kw_description (build_update_kwargs e0 Examples.blank) = Some (Some "")
    /\ Event.description e1 = Some ""
    /\ kw_description (build_update_kwargs e1 Examples.second)
       = Some (Some "still degraded")
    /\ Event.description e2 = Some "still degraded"
    /\ Event.description e2 <> Event.description e1.
Proof.
  do 7 eexists.
  split; [reflexivity|]. split; [reflexivity|].
  split; [reflexivity|]. split; [reflexivity|].
  split; [reflexivity|]. split; [reflexivity|].
  repeat split; simpl; discriminate.
Qed.

(** The claim fails in a second way: an update that comes with an event
    object read before the first append, whose description is still unset,
    makes the handler write the description again, over a non-empty one. *)
Lemma stale_object_description_overwritten :
  exists db1 o1 db2 o2 e1 e2,
    append_update Scenario.db1 Scenario.u1 None = Some (db1, o1)
    /\ append_update db1 Scenario.u2 (Some Scenario.E1) = Some (db2, o2)
    /\ get_event Scenario.db1 1 = Some Scenario.E1
    /\ get_event db1 1 = Some e1
    /\ get_event db2 1 = Some e2
    /\ Event.description e1 = Some "db down"
    /\ Event.description e2 = Some "partial recovery".
Proof.
  do 6 eexists.
  split; [reflexivity|]. split; [reflexivity|]. split; [reflexivity|].
  split; [reflexivity|]. split; [reflexivity|].
  split; reflexivity.
Qed.

(** ** Unlinking *)

(** C2 does not hold of the code: in the scenario, after the update
    "partial recovery", [E1] and the service both are at status 1; unlinking
    [E1], from either side of the relation, removes the only link and
    leaves the service at status 1. *)
Theorem scenario_unlink_leaves_status :
  exists db3 e1 s,
    Scenario.db3 = Some db3
    /\ get_event db3 1 = Some e1
    /\ get_service db3 1 = Some s
    /\ Event.status e1 = 1
    /\ Event.peak_status e1 = 2
    /\ Service.status s = 1
    /\ event_services (unlink_event db3 e1 1) = []
    /\ option_map Service.status (get_service (unlink_event db3 e1 1) 1)
       = Some 1
    /\ event_services (fst (unlink_event_reverse db3 s 1)) = []
    /\ option_map Service.status
         (get_service (fst (unlink_event_reverse db3 s 1)) 1)
       = Some 1
    /\ Service.status (snd (unlink_event_reverse db3 s 1)) = 1.
Proof.
  do 3 eexists.
  split; [reflexivity|]. split; [reflexivity|]. split; [reflexivity|].
  repeat split.
Qed.

(** In general, a notification for an event whose status equals the
    service's status never changes the service's status. *)
Lemma update_from_event_equal_status (db : DB) (self : Service.t)
  (event : Event.t) :
  Event.status event = Service.status self ->
  Service.status (snd (update_from_event db self event))
  = Service.status self.
Proof.
  intros Heq.
  destruct (update_from_event_self db self event) as [_ Hs].
  rewrite Hs, Heq, Z.gtb_ltb, Z.ltb_irrefl. reflexivity.
Qed.

(** * Further properties of the handlers *)

(** ** [update_from_event]: what the service's status can become *)

(** X1: whatever the database, the service and the event, the status of the
    service after the call is either the one it had or the event's, and it
    is never below the event's. *)
Theorem update_from_event_status_bounds (db : DB) (self : Service.t)
  (event : Event.t) :
  let self' := snd (update_from_event db self event) in
  (Service.status self' = Service.status self
   \/ Service.status self' = Event.status event)
  /\ Event.status event <= Service.status self'.
Proof.
  intros self'. subst self'.
  destruct (update_from_event_self db self event) as [_ Hs]. rewrite Hs.
  rewrite Z.gtb_ltb.
  destruct (Z.ltb_spec (Service.status self) (Event.status event));
    [split; [now right | lia]|].
  destruct (Z.ltb_spec (Event.status event) (Service.status self));
    [|split; [now left | lia]].
  destruct (other_event_matches db self event); split; auto; lia.
Qed.

(** X2: when the triggering event is a row of the events table and is
    linked to the service, the status the service ends with is the status
    of some event linked to it. *)
Theorem update_from_event_justified (db : DB) (self : Service.t)
  (event : Event.t) :
  In event (events db) ->
  linked db (Event.pk event) (Service.pk self) = true ->
  exists e, In e (events db)
            /\ linked db (Event.pk e) (Service.pk self) = true
            /\ Event.status e
               = Service.status (snd (update_from_event db self event)).
Proof.
  intros Hin Hl.
  destruct (update_from_event_self db self event) as [_ Hs]. rewrite Hs.
  rewrite Z.gtb_ltb.
  destruct (Z.ltb_spec (Service.status self) (Event.status event));
    [now exists event|].
  destruct (Z.ltb_spec (Event.status event) (Service.status self)).
  - destruct (other_event_matches db self event) eqn:Ho;
      [|now exists event].
    apply other_event_matches_spec in Ho as (e & He & Hle & Hse & _).
    now exists e.
  - exists event. repeat split; auto. lia.
Qed.

Lemma update_from_event_justified_witness :
  exists e, In e [Event.mk 1 1 2 None None 5; Event.mk 2 2 2 None None 3]
            /\ Event.status e = 2.
Proof.
  destruct (update_from_event_justified
              (mkDB [Service.mk 1 2 0]
                    [Event.mk 1 1 2 None None 5; Event.mk 2 2 2 None None 3]
                    [(1, 1); (2, 1)] [])
              (Service.mk 1 2 0) (Event.mk 1 1 2 None None 5))
    as (e & Hin & _ & Hs).
  - left. reflexivity.
  - reflexivity.
  - exists e. split; [exact Hin | exact Hs].
Defined.

(** The call does nothing when the event is not newer and its status is the
    service's, or is lower while another linked event holds the service's
    status. *)
Lemma update_from_event_noop (db : DB) (self : Service.t) (event : Event.t) :
  Event.date_updated event <= Service.date_updated self ->
  Event.status event = Service.status self
  \/ (Event.status event < Service.status self
      /\ other_event_matches db self event = true) ->
  update_from_event db self event = (db, self).
Proof.
  intros Hd Hs. unfold update_from_event.
  rewrite (Z.gtb_ltb (Event.date_updated event)).
  destruct (Z.ltb_spec (Service.date_updated self)
                       (Event.date_updated event)); [lia|].
  rewrite Z.gtb_ltb.
  destruct Hs as [Hs|[Hs Ho]].
  - rewrite Hs, Z.ltb_irrefl. reflexivity.
  - destruct (Z.ltb_spec (Service.status self) (Event.status event)); [lia|].
    destruct (Z.ltb_spec (Event.status event) (Service.status self)); [|lia].
    rewrite Ho. reflexivity.
Qed.

(** The existence query reads the events table, the through table, and the
    key and status of the service, nothing else. *)
Lemma other_event_matches_ext (db db' : DB) (self self' : Service.t)
  (event : Event.t) :
  events db' = events db ->
  event_services db' = event_services db ->
  Service.pk self' = Service.pk self ->
  Service.status self' = Service.status self ->
  other_event_matches db' self' event = other_event_matches db self event.
Proof.
  intros He Hl Hpk Hs. unfold other_event_matches, linked.
  now rewrite He, Hl, Hpk, Hs.
Qed.

(** X3: delivering the same notification a second time changes nothing
    more: neither the database nor the instance. *)
Theorem update_from_event_idempotent (db : DB) (self : Service.t)
  (event : Event.t) :
  let r := update_from_event db self event in
  update_from_event (fst r) (snd r) event = r.
Proof.
  intros r. subst r.
  destruct (update_from_event_self db self event) as [Hd Hs].
  destruct (update_from_event_frame db self event) as (Fe & Fl & _).
  pose proof (update_from_event_pk db self event) as Hpk.
  destruct (update_from_event db self event) as [db1 self1] eqn:Hr.
  cbn [fst snd] in *.
  apply update_from_event_noop; [lia|].
  revert Hs. rewrite Z.gtb_ltb.
  destruct (Z.ltb_spec (Service.status self) (Event.status event));
    [intros ->; now left|].
  destruct (Z.ltb_spec (Event.status event) (Service.status self));
    [|intros ->; left; lia].
  destruct (other_event_matches db self event) eqn:Ho;
    [|intros ->; now left].
  intros Hs. right. split; [lia|].
  rewrite <- Ho. now apply other_event_matches_ext.
Qed.

(** ** [get_message]: when the derived message is empty *)

(** X4: the derived message is the empty string exactly when there is no
    explicit message and the status is none of 0, 1, 2; in particular an
    object with a status among the choices always has a message to show. *)
Theorem get_message_empty_iff {A : Type} `{EventBase A} (self : A) :
  get_message self = ""%string
  <-> no_message (eb_message self) /\ ~ valid_status (eb_status self).
Proof.
  unfold get_message, valid_status. simpl. split.
  - destruct (truthy (eb_message self)) eqn:Ht.
    + destruct (eb_message self) as [m|]; [|discriminate Ht].
      intros ->. discriminate Ht.
    + apply truthy_false_iff in Ht. intros Hm. split; [exact Ht|].
      destruct (Z.eqb_spec (eb_status self) 0); [discriminate Hm|].
      destruct (Z.eqb_spec (eb_status self) 1); [discriminate Hm|].
      destruct (Z.eqb_spec (eb_status self) 2); [discriminate Hm|].
      intros [Hs|[Hs|[Hs|[]]]]; congruence.
  - intros [Hno Hs]. apply truthy_false_iff in Hno. rewrite Hno.
    destruct (Z.eqb_spec (eb_status self) 0); [exfalso; apply Hs; auto|].
    destruct (Z.eqb_spec (eb_status self) 1); [exfalso; apply Hs; auto|].
    destruct (Z.eqb_spec (eb_status self) 2); [exfalso; apply Hs; auto|].
    reflexivity.
Qed.

(** ** [handle_event_save]: one visit per linked service *)

Lemma get_service_pk (db : DB) (pk : Z) (s : Service.t) :
  get_service db pk = Some s -> Service.pk s = pk /\ In s (services db).
Proof.
  unfold get_service. intros H. apply find_some in H as [Hin Hpk].
  split; [now apply Z.eqb_eq | exact Hin].
Qed.

(** The loop of the two handlers that visit services, over any list of
    services none of which has key [k], leaves the row of [k] alone. *)
Lemma fold_update_from_event_other (event : Event.t) (l : list Service.t)
  (db : DB) (k : Z) :
  (forall s, In s l -> Service.pk s <> k) ->
  get_service
    (fold_left (fun db service => fst (update_from_event db service event))
               l db) k
  = get_service db k.
Proof.
  revert db. induction l as [|s l IH]; intros db Hl; simpl; [reflexivity|].
  rewrite IH by (intros s' Hs'; apply Hl; now right).
  apply update_from_event_other. intros Hk. apply (Hl s); [now left | auto].
Qed.

(** The instance after the call depends on the database only through the
    events table and the through table. *)
Lemma update_from_event_snd_ext (db db' : DB) (self : Service.t)
  (event : Event.t) :
  events db' = events db ->
  event_services db' = event_services db ->
  snd (update_from_event db' self event)
  = snd (update_from_event db self event).
Proof.
  intros He Hl.
  destruct (update_from_event_self db self event) as [Hd Hs].
  destruct (update_from_event_self db' self event) as [Hd' Hs'].
  pose proof (update_from_event_pk db self event) as Hp.
  pose proof (update_from_event_pk db' self event) as Hp'.
  rewrite (other_event_matches_ext db db' self self event) in Hs' by auto.
  destruct (snd (update_from_event db self event)) as [p1 s1 d1].
  destruct (snd (update_from_event db' self event)) as [p2 s2 d2].
  simpl in *. congruence.
Qed.

(** Over services with distinct keys, the loop treats the row of each
    visited service as one call on that row would. *)
Lemma fold_update_from_event_hit (event : Event.t) (l : list Service.t)
  (db : DB) (s : Service.t) :
  distinct (map Service.pk l) = true ->
  In s l ->
  get_service db (Service.pk s) = Some s ->
  get_service
    (fold_left (fun db service => fst (update_from_event db service event))
               l db) (Service.pk s)
  = Some (snd (update_from_event db s event)).
Proof.
  revert db. induction l as [|x l IH]; intros db Hd Hin Hget; [contradiction|].
  cbn [map distinct] in Hd. apply andb_true_iff in Hd as [Hx Hd].
  apply negb_true_iff in Hx. cbn [fold_left].
  destruct (update_from_event_frame db x event) as (Fe & Fl & _).
  assert (Hnotin : forall y, In y l -> Service.pk y <> Service.pk x).
  { intros y Hy Heq. unfold pk_in in Hx.
    assert (Hex : existsb (Z.eqb (Service.pk x)) (map Service.pk l) = true).
    { apply existsb_exists. exists (Service.pk y). split.
      - now apply in_map.
      - apply Z.eqb_eq. auto. }
    congruence. }
  destruct (Z.eq_dec (Service.pk x) (Service.pk s)) as [Heq|Hne].
  - assert (Hxs : x = s).
    { destruct Hin as [Hin|Hin]; [exact Hin|].
      exfalso. apply (Hnotin s Hin). auto. }
    subst x.
    rewrite fold_update_from_event_other by exact Hnotin.
    now apply update_from_event_sync.
  - destruct Hin as [Hin|Hin]; [congruence|].
    rewrite IH; auto.
    + f_equal. now apply update_from_event_snd_ext.
    + rewrite update_from_event_other by auto. exact Hget.
Qed.

Lemma distinct_filter {A : Type} (key : A -> Z) (p : A -> bool)
  (l : list A) :
  distinct (map key l) = true -> distinct (map key (filter p l)) = true.
Proof.
  induction l as [|x l IH]; [reflexivity|]. cbn [map distinct filter].
  intros Hd. apply andb_true_iff in Hd as [Hx Hd].
  destruct (p x); [|auto]. cbn [map distinct].
  rewrite (IH Hd), andb_true_r.
  apply negb_true_iff. apply negb_true_iff in Hx.
  unfold pk_in in *. destruct (existsb _ (map key (filter p l))) eqn:Hex;
    [|reflexivity].
  apply existsb_exists in Hex as (k & Hk & Heq).
  apply in_map_iff in Hk as (y & <- & Hy). apply filter_In in Hy as [Hy _].
  assert (Hex' : existsb (Z.eqb (key x)) (map key l) = true).
  { apply existsb_exists. exists (key y). split; [now apply in_map | auto]. }
  congruence.
Qed.

(** X5: saving an event never touches a service the event is not linked
    to, nor the events table, the through table or the updates table. *)
Theorem handle_event_save_unlinked_untouched (db : DB) (instance : Event.t)
  (k : Z) :
  linked db (Event.pk instance) k = false ->
  get_service (handle_event_save db instance) k = get_service db k
  /\ events (handle_event_save db instance) = events db
  /\ event_services (handle_event_save db instance) = event_services db
  /\ eventupdates (handle_event_save db instance) = eventupdates db.
Proof.
  intros Hl. split; [|apply handle_event_save_frame].
  unfold handle_event_save. apply fold_update_from_event_other.
  intros s Hs Hk. apply filter_In in Hs as [_ Hs]. congruence.
Qed.

Lemma handle_event_save_unlinked_untouched_witness :
  get_service
    (handle_event_save
       (mkDB [Service.mk 1 0 0; Service.mk 2 0 0]
             [Event.mk 5 2 2 None None 3] [(5, 1)] [])
       (Event.mk 5 2 2 None None 3)) 2
  = Some (Service.mk 2 0 0).
Proof.
  apply (handle_event_save_unlinked_untouched
           (mkDB [Service.mk 1 0 0; Service.mk 2 0 0]
                 [Event.mk 5 2 2 None None 3] [(5, 1)] [])
           (Event.mk 5 2 2 None None 3) 2).
  reflexivity.
Defined.

(** X6: with unique service keys, saving an event treats every service
    linked to it exactly as one call of [update_from_event] on its row
    would, whatever the other linked services; so the service ends at a
    status and a [date_updated] not below the event's. *)
Theorem handle_event_save_linked (db : DB) (instance : Event.t)
  (s : Service.t) :
  distinct (map Service.pk (services db)) = true ->
  get_service db (Service.pk s) = Some s ->
  linked db (Event.pk instance) (Service.pk s) = true ->
  exists s',
    get_service (handle_event_save db instance) (Service.pk s) = Some s'
    /\ s' = snd (update_from_event db s instance)
    /\ Event.status instance <= Service.status s'
    /\ Event.date_updated instance <= Service.date_updated s'.
Proof.
  intros Hd Hget Hl.
  exists (snd (update_from_event db s instance)).
  split; [|split; [reflexivity|]].
  - unfold handle_event_save, services_all.
    apply fold_update_from_event_hit; auto.
    + now apply distinct_filter.
    + apply filter_In. split; [|exact Hl].
      now apply (get_service_pk db (Service.pk s)).
  - destruct (update_from_event_self db s instance) as [Hdate Hst].
    split; [|rewrite Hdate; lia].
    rewrite Hst, Z.gtb_ltb.
    destruct (Z.ltb_spec (Service.status s) (Event.status instance)); [lia|].
    destruct (Z.ltb_spec (Event.status instance) (Service.status s)); [|lia].
    destruct (other_event_matches db s instance); lia.
Qed.

Lemma handle_event_save_linked_witness :
  exists s',
    get_service
      (handle_event_save
         (mkDB [Service.mk 1 0 0; Service.mk 2 0 0]
               [Event.mk 5 2 2 None None 3] [(5, 1); (5, 2)] [])
         (Event.mk 5 2 2 None None 3)) 2
    = Some s'
    /\ 2 <= Service.status s'.
Proof.
  destruct (handle_event_save_linked
              (mkDB [Service.mk 1 0 0; Service.mk 2 0 0]
                    [Event.mk 5 2 2 None None 3] [(5, 1); (5, 2)] [])
              (Event.mk 5 2 2 None None 3) (Service.mk 2 0 0))
    as (s' & Hg & _ & Hs & _); try reflexivity.
  exists s'. split; [exact Hg | exact Hs].
Defined.

(** ** [handle_update_save]: every saved update is taken for the latest *)

Lemma handle_update_save_pk (db db' : DB) (instance : EventUpdate.t)
  (c : option Event.t) (created : bool) (obj' : Event.t) :
  handle_update_save db instance c created = Some (db', obj') ->
  cache_names_event instance c ->
  Event.pk obj' = EventUpdate.event instance.
Proof.
  intros Hs Hc. apply handle_update_save_some in Hs as (obj & Hi & -> & _).
  change (Event.pk (aggregate_with obj obj instance)) with (Event.pk obj).
  destruct c as [ev|]; simpl in *.
  - injection Hi as <-. exact Hc.
  - now apply get_event_pk in Hi.
Qed.

(** The row with the key of the object, after the handler. *)
Lemma handle_update_save_row (db db' : DB) (instance : EventUpdate.t)
  (c : option Event.t) (created : bool) (obj' row : Event.t) :
  handle_update_save db instance c created = Some (db', obj') ->
  get_event db (Event.pk obj') = Some row ->
  get_event db' (Event.pk obj')
  = Some (aggregate_with (cached_or c row) row instance)
  /\ obj' = aggregate_with (cached_or c row) (cached_or c row) instance.
Proof.
  intros Hs Hr. apply handle_update_save_some in Hs as (obj & Hi & -> & ->).
  change (Event.pk (aggregate_with obj obj instance)) with (Event.pk obj) in *.
  assert (Ho : cached_or c row = obj).
  { destruct c as [ev|]; simpl in *; [congruence|].
    destruct (get_event_pk _ _ _ Hi) as [Hpk _]. rewrite Hpk in Hr.
    congruence. }
  rewrite Ho. split; [|reflexivity].
  rewrite get_event_after_update, Hr. cbn [option_map].
  destruct (get_event_pk _ _ _ Hr) as [Hpk _]. now rewrite Hpk, Z.eqb_refl.
Qed.

(** Without an attached object the handler returns only if the row is
    there. *)
Lemma handle_update_save_fetched (db db' : DB) (instance : EventUpdate.t)
  (created : bool) (obj' : Event.t) :
  handle_update_save db instance None created = Some (db', obj') ->
  Event.pk obj' = EventUpdate.event instance
  /\ exists row, get_event db (EventUpdate.event instance) = Some row.
Proof.
  intros Hs. split; [exact (handle_update_save_pk _ _ _ _ _ _ Hs I)|].
  apply handle_update_save_some in Hs as (obj & Hi & _). now exists obj.
Qed.

(** X7: whenever the handler returns, for a new update or for one saved
    again, with or without an event object attached, the object it worked
    on and the row of that event, if there is one, carry the status, the
    message and the creation timestamp of that update, and show the same
    derived message.  Without an attached object the row is there. *)
Theorem handle_update_save_mirrors (db db' : DB) (instance : EventUpdate.t)
  (c : option Event.t) (created : bool) (obj' : Event.t) :
  handle_update_save db instance c created = Some (db', obj') ->
  (Event.status obj' = EventUpdate.status instance
   /\ Event.message obj' = EventUpdate.message instance
   /\ Event.date_updated obj' = EventUpdate.date_created instance
   /\ get_message obj' = get_message instance)
  /\ (forall row, get_event db (Event.pk obj') = Some row ->
        exists e',
          get_event db' (Event.pk obj') = Some e'
          /\ Event.status e' = EventUpdate.status instance
          /\ Event.message e' = EventUpdate.message instance
          /\ Event.date_updated e' = EventUpdate.date_created instance
          /\ get_message e' = get_message instance)
  /\ (c = None ->
      exists e',
        get_event db' (EventUpdate.event instance) = Some e'
        /\ Event.status e' = EventUpdate.status instance
        /\ Event.message e' = EventUpdate.message instance
        /\ Event.date_updated e' = EventUpdate.date_created instance
        /\ get_message e' = get_message instance).
Proof.
  intros Hs.
  assert (Hrow : forall row, get_event db (Event.pk obj') = Some row ->
            exists e',
              get_event db' (Event.pk obj') = Some e'
              /\ Event.status e' = EventUpdate.status instance
              /\ Event.message e' = EventUpdate.message instance
              /\ Event.date_updated e' = EventUpdate.date_created instance
              /\ get_message e' = get_message instance).
  { intros row Hr.
    destruct (handle_update_save_row _ _ _ _ _ _ _ Hs Hr) as [Hg _].
    eexists. split; [exact Hg|]. repeat split. }
  split; [|split; [exact Hrow|]].
  - apply handle_update_save_some in Hs as (obj & _ & -> & _).
    repeat split.
  - intros ->.
    destruct (handle_update_save_fetched _ _ _ _ _ Hs) as [Hpk [row Hr]].
    rewrite <- Hpk in *. now apply (Hrow row).
Qed.

Lemma handle_update_save_mirrors_witness :
  Event.status (snd Sample.resaved) = 2
  /\ exists e', get_event (fst Sample.resaved) 1 = Some e'
                /\ Event.status e' = 2.
Proof.
  destruct (handle_update_save_mirrors Sample.db (fst Sample.resaved)
              Sample.first_update (Some Sample.old_object) false
              (snd Sample.resaved) eq_refl)
    as ((Hs & _) & Hrow & _).
  split; [exact Hs|].
  destruct (Hrow (Event.mk 1 0 0 (Some "d") (Some "m") 1) eq_refl)
    as (e' & Hg & Hs' & _).
  exists e'. split; [exact Hg | exact Hs'].
Defined.

Lemma aggregate_with_status_le_peak (o row : Event.t) (u : EventUpdate.t) :
  Event.peak_status o = Event.peak_status row ->
  Event.status (aggregate_with o row u)
  <= Event.peak_status (aggregate_with o row u).
Proof.
  intros Ho. unfold aggregate_with, build_update_kwargs, setattrs.
  cbn [kw_peak_status kw_status Event.peak_status Event.status]. rewrite Ho.
  destruct (Z.eqb_spec (Event.peak_status row) 0); simpl; [lia|].
  destruct (Z.ltb_spec (Event.peak_status row) (EventUpdate.status u)); lia.
Qed.

(** X8: after the handler has run, the status of the event object it worked
    on is never above that object's peak status, whatever the statuses
    involved; the same holds of the row of the event when the object
    carried the row's [peak_status] (as it does when no object is attached
    and the row is fetched). *)
Theorem status_le_peak_after_save (db db' : DB) (instance : EventUpdate.t)
  (c : option Event.t) (created : bool) (obj' : Event.t) :
  handle_update_save db instance c created = Some (db', obj') ->
  Event.status obj' <= Event.peak_status obj'
  /\ (forall row,
        get_event db (Event.pk obj') = Some row ->
        Event.peak_status (cached_or c row) = Event.peak_status row ->
        exists e', get_event db' (Event.pk obj') = Some e'
                   /\ Event.status e' <= Event.peak_status e')
  /\ (c = None ->
      exists e', get_event db' (EventUpdate.event instance) = Some e'
                 /\ Event.status e' <= Event.peak_status e').
Proof.
  intros Hs.
  assert (Hrow : forall row,
            get_event db (Event.pk obj') = Some row ->
            Event.peak_status (cached_or c row) = Event.peak_status row ->
            exists e', get_event db' (Event.pk obj') = Some e'
                       /\ Event.status e' <= Event.peak_status e').
  { intros row Hr Hp.
    destruct (handle_update_save_row _ _ _ _ _ _ _ Hs Hr) as [Hg _].
    eexists. split; [exact Hg|]. now apply aggregate_with_status_le_peak. }
  split; [|split; [exact Hrow|]].
  - apply handle_update_save_some in Hs as (obj & _ & -> & _).
    now apply aggregate_with_status_le_peak.
  - intros ->.
    destruct (handle_update_save_fetched _ _ _ _ _ Hs) as [Hpk [row Hr]].
    rewrite <- Hpk in *. now apply (Hrow row).
Qed.

Lemma status_le_peak_after_save_witness :
  Event.status (snd Sample.resaved) <= Event.peak_status (snd Sample.resaved).
Proof.
  apply (status_le_peak_after_save Sample.db (fst Sample.resaved)
           Sample.first_update (Some Sample.old_object) false
           (snd Sample.resaved) eq_refl).
Defined.

(** X9: the handler raises in two cases only: no event object is attached
    and the row the update names does not exist, or the update is not new
    and the updates table holds no update of the event.  With an object
    attached, a new update never makes it raise, even when the row of the
    event is gone. *)
Theorem handle_update_save_fails_iff (db : DB) (instance : EventUpdate.t)
  (c : option Event.t) (created : bool) :
  handle_update_save db instance c created = None
  <-> (c = None /\ get_event db (EventUpdate.event instance) = None)
      \/ (created = false
          /\ exists obj,
               instance_event db instance c = Some obj
               /\ forall v, In v (eventupdates db) ->
                            EventUpdate.event v <> Event.pk obj).
Proof.
  unfold handle_update_save.
  destruct (instance_event db instance c) as [obj|] eqn:Hi.
  - split.
    + destruct (is_latest db obj created) as [[|]|] eqn:Hl; try discriminate.
      intros _. right.
      destruct created; [discriminate Hl|]. split; [reflexivity|].
      exists obj. split; [reflexivity|].
      intros v Hv Heq.
      rewrite is_latest_always in Hl; [discriminate|].
      right. exists v. split; [exact Hv | exact Heq].
    + intros [[-> Hn]|[-> (obj0 & Ho & Hno)]].
      * simpl in Hi. congruence.
      * injection Ho as <-. unfold is_latest.
        assert (Hf : filter (fun u => EventUpdate.event u =? Event.pk obj)
                            (eventupdates db) = []).
        { destruct (filter _ (eventupdates db)) as [|v l] eqn:Hf;
            [reflexivity|].
          assert (Hv : In v (filter (fun u => EventUpdate.event u
                                              =? Event.pk obj)
                                    (eventupdates db)))
            by (rewrite Hf; now left).
          apply filter_In in Hv as [Hv Hev]. apply Z.eqb_eq in Hev.
          exfalso. apply (Hno v Hv Hev). }
        rewrite Hf. reflexivity.
  - split; [|reflexivity]. intros _. left.
    destruct c; [discriminate Hi | auto].
Qed.

(** X10: saving again any update of the table (not created) succeeds as
    soon as its event exists, and makes the event carry that update's
    status, message and timestamp, whether or not the table holds more
    recent updates of the event, and whatever event object is attached. *)
Theorem resave_overwrites_event (db : DB) (instance : EventUpdate.t)
  (c : option Event.t) (e : Event.t) :
  In instance (eventupdates db) ->
  get_event db (EventUpdate.event instance) = Some e ->
  cache_names_event instance c ->
  exists db' obj' e',
    handle_update_save db instance c false = Some (db', obj')
    /\ get_event db' (EventUpdate.event instance) = Some e'
    /\ Event.status e' = EventUpdate.status instance
    /\ Event.message e' = EventUpdate.message instance
    /\ Event.date_updated e' = EventUpdate.date_created instance.
Proof.
  intros Hin He Hc.
  destruct (get_event_pk _ _ _ He) as [Hpk _].
  set (o := cached_or c e).
  assert (Ho : Event.pk o = EventUpdate.event instance)
    by (subst o; destruct c; simpl in *; congruence).
  assert (Hi : instance_event db instance c = Some o)
    by (subst o; destruct c; [reflexivity | exact He]).
  rewrite (handle_update_save_latest db instance c false o Hi).
  - eexists. eexists. exists (aggregate_with o e instance).
    split; [reflexivity|]. split; [|repeat split].
    rewrite get_event_after_update, He. cbn [option_map].
    now rewrite Hpk, Ho, Z.eqb_refl.
  - apply is_latest_always. right. exists instance.
    split; [exact Hin | congruence].
Qed.

Lemma resave_overwrites_event_witness :
  exists db' obj' e',
    handle_update_save Sample.db Sample.first_update
                       (Some Sample.old_object) false = Some (db', obj')
    /\ get_event db' 1 = Some e'
    /\ Event.status e' = 2
    /\ Event.date_updated e' = 3.
Proof.
  destruct (resave_overwrites_event Sample.db Sample.first_update
              (Some Sample.old_object)
              (Event.mk 1 0 0 (Some "d") (Some "m") 1))
    as (db' & obj' & e' & Hh & Hg & Hs & _ & Hd).
  - left. reflexivity.
  - reflexivity.
  - reflexivity.
  - exists db', obj', e'. repeat split; assumption.
Defined.

(** The loop over services keeps the keys of the services table. *)
Lemma update_from_event_service_pks (db : DB) (self : Service.t)
  (event : Event.t) :
  map Service.pk (services (fst (update_from_event db self event)))
  = map Service.pk (services db).
Proof.
  destruct (update_from_event_rows db self event) as (g & Hg & HR).
  rewrite Hg, map_map. apply map_ext. intros s. apply (HR s).
Qed.

Lemma fold_update_from_event_service_pks (event : Event.t)
  (l : list Service.t) (db : DB) :
  map Service.pk
      (services
         (fold_left
            (fun db service => fst (update_from_event db service event))
            l db))
  = map Service.pk (services db).
Proof.
  revert db. induction l as [|s l IH]; intros db; simpl; [reflexivity|].
  rewrite IH. apply update_from_event_service_pks.
Qed.

(** X11: the handler never inserts, deletes or reorders a row.  It leaves
    the updates table and the through table as they were, keeps the keys
    of the events and of the services, and changes no event other than the
    update's and no service the event is not linked to (the attached
    object, if any, having the key the update names). *)
Theorem handle_update_save_frame (db db' : DB) (instance : EventUpdate.t)
  (c : option Event.t) (created : bool) (obj' : Event.t) :
  handle_update_save db instance c created = Some (db', obj') ->
  cache_names_event instance c ->
  eventupdates db' = eventupdates db
  /\ event_services db' = event_services db
  /\ map Event.pk (events db') = map Event.pk (events db)
  /\ map Service.pk (services db') = map Service.pk (services db)
  /\ (forall k, k <> EventUpdate.event instance ->
                get_event db' k = get_event db k)
  /\ (forall k, linked db (EventUpdate.event instance) k = false ->
                get_service db' k = get_service db k).
Proof.
  intros Hs Hc.
  pose proof (handle_update_save_pk _ _ _ _ _ _ Hs Hc) as Hpk.
  apply handle_update_save_some in Hs as (obj & Hi & -> & ->).
  change (Event.pk (aggregate_with obj obj instance)) with (Event.pk obj)
    in Hpk.
  set (kw := build_update_kwargs obj instance).
  set (db1 := set_events db _).
  destruct (handle_event_save_frame db1 (setattrs kw obj))
    as (Fe & Fl & Fu).
  split; [exact Fu|]. split; [exact Fl|]. split; [|split; [|split]].
  - rewrite Fe. subst db1. cbn [events set_events]. unfold qs_update.
    rewrite map_map. apply map_ext. intros r.
    now destruct (Event.pk r =? Event.pk obj).
  - unfold handle_event_save.
    now rewrite fold_update_from_event_service_pks.
  - intros k Hk. subst db1.
    rewrite get_event_after_update.
    destruct (get_event db k) as [r|] eqn:Hr; [|reflexivity].
    apply get_event_pk in Hr as [Hr _]. cbn [option_map].
    assert (Hne : (Event.pk r =? Event.pk obj) = false)
      by (apply Z.eqb_neq; congruence).
    now rewrite Hne.
  - intros k Hk. unfold handle_event_save.
    rewrite fold_update_from_event_other; [reflexivity|].
    intros s Hin Heq. unfold services_all in Hin.
    apply filter_In in Hin as [_ Hin].
    change (linked db1 (Event.pk (setattrs kw obj)) (Service.pk s))
      with (linked db (Event.pk obj) (Service.pk s)) in Hin.
    congruence.
Qed.

Lemma handle_update_save_frame_witness :
  get_service (fst Sample.resaved) 2 = get_service Sample.db 2.
Proof.
  apply (handle_update_save_frame Sample.db (fst Sample.resaved)
           Sample.first_update (Some Sample.old_object) false
           (snd Sample.resaved) eq_refl eq_refl).
  reflexivity.
Defined.

(** The row of a linked service after [handle_event_save]. *)
Lemma handle_event_save_row (db : DB) (instance : Event.t) (s : Service.t) :
  distinct (map Service.pk (services db)) = true ->
  get_service db (Service.pk s) = Some s ->
  linked db (Event.pk instance) (Service.pk s) = true ->
  get_service (handle_event_save db instance) (Service.pk s)
  = Some (snd (update_from_event db s instance)).
Proof.
  intros Hd Hget Hl. unfold handle_event_save, services_all.
  apply fold_update_from_event_hit; auto.
  - now apply distinct_filter.
  - apply filter_In. split; [|exact Hl].
    now apply (get_service_pk db (Service.pk s)).
Qed.

(** X12: appending an update to an event brings every service linked to
    the event to a status not below the update's status and to a
    [date_updated] not before the update's creation, whatever event object
    is attached to the update (service keys being unique). *)
Theorem append_update_reaches_services (db db' : DB) (u : EventUpdate.t)
  (c : option Event.t) (obj' : Event.t) (s : Service.t) :
  append_update db u c = Some (db', obj') ->
  cache_names_event u c ->
  distinct (map Service.pk (services db)) = true ->
  get_service db (Service.pk s) = Some s ->
  linked db (EventUpdate.event u) (Service.pk s) = true ->
  exists s',
    get_service db' (Service.pk s) = Some s'
    /\ EventUpdate.status u <= Service.status s'
    /\ EventUpdate.date_created u <= Service.date_updated s'
    /\ Service.date_updated s <= Service.date_updated s'.
Proof.
  intros Ha Hc Hd Hget Hl. unfold append_update in Ha.
  pose proof (handle_update_save_pk _ _ _ _ _ _ Ha Hc) as Hpk.
  apply handle_update_save_some in Ha as (obj & Hi & -> & ->).
  set (db1 := set_events _ _).
  set (ev := setattrs (build_update_kwargs obj u) obj) in *.
  exists (snd (update_from_event db1 s ev)).
  split.
  - apply handle_event_save_row; auto.
    change (linked db (Event.pk (aggregate_with obj obj u)) (Service.pk s)
            = true).
    now rewrite Hpk.
  - destruct (update_from_event_self db1 s ev) as [Hdate Hst].
    rewrite Hdate, Hst.
    change (Event.status ev) with (EventUpdate.status u).
    change (Event.date_updated ev) with (EventUpdate.date_created u).
    split; [|lia].
    rewrite Z.gtb_ltb.
    destruct (Z.ltb_spec (Service.status s) (EventUpdate.status u)); [lia|].
    destruct (Z.ltb_spec (EventUpdate.status u) (Service.status s)); [|lia].
    destruct (other_event_matches db1 s ev); lia.
Qed.

Lemma append_update_reaches_services_witness :
  exists s',
    get_service (fst Sample.appended) 1 = Some s'
    /\ 2 <= Service.status s'.
Proof.
  destruct (append_update_reaches_services Sample.db0 (fst Sample.appended)
              Sample.first_update (Some Sample.old_object)
              (snd Sample.appended) (Service.mk 1 0 0))
    as (s' & Hg & Hs & _); try reflexivity.
  exists s'. split; [exact Hg | exact Hs].
Defined.

(** ** [handle_event_m2m_save]: the two loops *)

Lemma update_from_event_status_ge (db : DB) (self : Service.t)
  (event : Event.t) :
  Event.status event <= Service.status (snd (update_from_event db self event)).
Proof.
  destruct (update_from_event_self db self event) as [_ Hst].
  rewrite Hst, Z.gtb_ltb.
  destruct (Z.ltb_spec (Service.status self) (Event.status event)); [lia|].
  destruct (Z.ltb_spec (Event.status event) (Service.status self)); [|lia].
  destruct (other_event_matches db self event); lia.
Qed.

Lemma justified_ext (db db' : DB) (self self' : Service.t) :
  events db' = events db ->
  event_services db' = event_services db ->
  Service.pk self' = Service.pk self ->
  Service.status self' = Service.status self ->
  justified db self -> justified db' self'.
Proof.
  intros He Hl Hpk Hs (e & Hin & Hle & Hse). exists e.
  unfold linked in *. rewrite He, Hl, Hpk, Hs. auto.
Qed.

(** After a call for a linked event of the table, the status of the service
    is held by a linked event. *)
Lemma justified_step (db : DB) (self : Service.t) (event : Event.t) :
  In event (events db) ->
  linked db (Event.pk event) (Service.pk self) = true ->
  justified (fst (update_from_event db self event))
            (snd (update_from_event db self event)).
Proof.
  intros Hin Hl.
  destruct (update_from_event_frame db self event) as (Fe & Fl & _).
  pose proof (update_from_event_pk db self event) as Hpk.
  destruct (update_from_event_self db self event) as [_ Hs].
  unfold justified, linked in *. rewrite Fe, Fl, Hpk, Hs, Z.gtb_ltb.
  destruct (Z.ltb_spec (Service.status self) (Event.status event));
    [now exists event|].
  destruct (Z.ltb_spec (Event.status event) (Service.status self)).
  - destruct (other_event_matches db self event) eqn:Ho;
      [|now exists event].
    apply other_event_matches_spec in Ho as (e & He & Hle & Hse & _).
    now exists e.
  - exists event. repeat split; auto. lia.
Qed.

Lemma In_distinct_eq {A : Type} (key : A -> Z) (l : list A) (a b : A) :
  distinct (map key l) = true ->
  In a l -> In b l -> key a = key b -> a = b.
Proof.
  induction l as [|x l IH]; [contradiction|]. cbn [map distinct].
  intros Hd Ha Hb Hk. apply andb_true_iff in Hd as [Hx Hd].
  apply negb_true_iff in Hx.
  assert (Hout : forall y, In y l -> key y <> key x).
  { intros y Hy Heq.
    assert (Hex : pk_in (key x) (map key l) = true).
    { apply existsb_exists. exists (key y).
      split; [now apply in_map | apply Z.eqb_eq; auto]. }
    congruence. }
  destruct Ha as [Ha|Ha], Hb as [Hb|Hb]; subst; auto.
  - exfalso. apply (Hout b Hb). auto.
  - exfalso. apply (Hout a Ha). auto.
Qed.

(** Once the status of the service is held by a linked event, a call for
    an event of the table cannot lower it (event keys being unique). *)
Lemma justified_not_lowered (db : DB) (self : Service.t) (event : Event.t) :
  distinct (map Event.pk (events db)) = true ->
  justified db self ->
  In event (events db) ->
  Service.status self
  <= Service.status (snd (update_from_event db self event)).
Proof.
  intros Hd (h & Hh & Hlh & Hsh) Hin.
  destruct (update_from_event_self db self event) as [_ Hs].
  rewrite Hs, Z.gtb_ltb.
  destruct (Z.ltb_spec (Service.status self) (Event.status event)); [lia|].
  destruct (Z.ltb_spec (Event.status event) (Service.status self)); [|lia].
  assert (Ho : other_event_matches db self event = true).
  { apply other_event_matches_spec. exists h. repeat split; auto.
    intros Heq.
    assert (h = event) by (apply (In_distinct_eq Event.pk (events db)); auto).
    subst h. lia. }
  rewrite Ho. lia.
Qed.

Lemma fold_reverse_frame (l : list Event.t) (db : DB) (self : Service.t) :
  let r := fold_left
             (fun st event => update_from_event (fst st) (snd st) event)
             l (db, self) in
  events (fst r) = events db
  /\ event_services (fst r) = event_services db
  /\ eventupdates (fst r) = eventupdates db
  /\ Service.pk (snd r) = Service.pk self
  /\ map Service.pk (services (fst r)) = map Service.pk (services db)
  /\ (forall k, k <> Service.pk self ->
                get_service (fst r) k = get_service db k)
  /\ (get_service db (Service.pk self) = Some self ->
      get_service (fst r) (Service.pk self) = Some (snd r)).
Proof.
  revert db self. induction l as [|e l IH]; intros db self; cbn [fold_left].
  - cbn [fst snd]. repeat split; auto.
  - cbn [fst snd].
    destruct (update_from_event_frame db self e) as (Fe & Fl & Fu).
    pose proof (update_from_event_pk db self e) as Hpk.
    pose proof (update_from_event_service_pks db self e) as Hpks.
    pose proof (update_from_event_other db self e) as Hoth.
    pose proof (update_from_event_sync db self e) as Hsync.
    destruct (update_from_event db self e) as [db1 self1].
    cbn [fst snd] in *.
    destruct (IH db1 self1) as (I1 & I2 & I3 & I4 & I5 & I6 & I7).
    rewrite I1, I2, I3, I4, I5, Hpk in *.
    repeat apply conj; auto.
    + intros k Hk. rewrite I6 by congruence. auto.
Qed.

(** From a status held by a linked event, the loop over events that are
    rows of the table and linked to the service only raises the status,
    and ends at or above the status of each of them. *)
Lemma fold_reverse_raises (l : list Event.t) (db : DB) (self : Service.t) :
  distinct (map Event.pk (events db)) = true ->
  (forall e, In e l ->
             In e (events db)
             /\ linked db (Event.pk e) (Service.pk self) = true) ->
  justified db self ->
  let r := fold_left
             (fun st event => update_from_event (fst st) (snd st) event)
             l (db, self) in
  Service.status self <= Service.status (snd r)
  /\ forall e, In e l -> Event.status e <= Service.status (snd r).
Proof.
  revert db self. induction l as [|e l IH]; intros db self Hd Hl Hj;
    cbn [fold_left fst snd].
  - split; [lia | contradiction].
  - destruct (Hl e (or_introl eq_refl)) as [Hin Hle].
    destruct (update_from_event_frame db self e) as (Fe & Fl & _).
    pose proof (update_from_event_pk db self e) as Hpk.
    pose proof (justified_step db self e Hin Hle) as Hj1.
    pose proof (justified_not_lowered db self e Hd Hj Hin) as Hge.
    pose proof (update_from_event_status_ge db self e) as Hev.
    destruct (update_from_event db self e) as [db1 self1].
    cbn [fst snd] in *.
    destruct (IH db1 self1) as [I1 I2]; auto.
    + now rewrite Fe.
    + intros e' He'. destruct (Hl e' (or_intror He')) as [Hin' Hle'].
      unfold linked in *. rewrite Fe, Fl, Hpk. auto.
    + split; [lia|]. intros e' [<-|He']; [lia | auto].
Qed.

(** X13: a notification of the many-to-many relation rewrites rows of the
    services table only, and keeps their keys.  When the keys name
    services, services outside [pk_set] are left alone; when they name
    events, every service but the instance is left alone, and an instance
    that was the row of the database still is. *)
Theorem m2m_save_frame (db : DB) (action : string) (reverse : bool)
  (pk_set : option (list Z)) :
  (forall (instance : Event.t) (k : Z),
     let db' := fst (handle_event_m2m_save db ModelService instance action
                                           reverse pk_set) in
     events db' = events db
     /\ event_services db' = event_services db
     /\ eventupdates db' = eventupdates db
     /\ map Service.pk (services db') = map Service.pk (services db)
     /\ (pk_in k (pk_set_elems pk_set) = false ->
         get_service db' k = get_service db k))
  /\ (forall (instance : Service.t) (k : Z),
        let r := handle_event_m2m_save db ModelEvent instance action
                                       reverse pk_set in
        events (fst r) = events db
        /\ event_services (fst r) = event_services db
        /\ eventupdates (fst r) = eventupdates db
        /\ map Service.pk (services (fst r)) = map Service.pk (services db)
        /\ (k <> Service.pk instance ->
            get_service (fst r) k = get_service db k)
        /\ (get_service db (Service.pk instance) = Some instance ->
            get_service (fst r) (Service.pk instance) = Some (snd r))).
Proof.
  split; intros instance k; unfold handle_event_m2m_save;
    destruct (negb (prefix "post_" action));
    try (cbn [fst snd]; repeat split; auto; fail);
    destruct (pk_set_empty pk_set);
    try (cbn [fst snd]; repeat split; auto; fail); cbn [fst snd].
  - destruct (fold_update_from_event_frame instance
                (filter (fun s => pk_in (Service.pk s) (pk_set_elems pk_set))
                        (services db)) db) as (Fe & Fl & Fu).
    repeat apply conj; auto.
    + apply fold_update_from_event_service_pks.
    + intros Hk. apply fold_update_from_event_other.
      intros s Hs Heq. apply filter_In in Hs as [_ Hs]. congruence.
  - destruct (fold_reverse_frame
                (filter (fun e => pk_in (Event.pk e) (pk_set_elems pk_set))
                        (events db)) db instance)
      as (F1 & F2 & F3 & F4 & F5 & F6 & F7).
    repeat apply conj; auto.
Qed.

(** X14: after a [post_] notification whose keys name events, all of them
    linked to the service (as after [post_add]), the service's status is
    not below the status of any of the events named (event keys being
    unique). *)
Theorem m2m_reverse_post_dominates (db : DB) (instance : Service.t)
  (action : string) (reverse : bool) (pks : list Z) :
  prefix "post_" action = true ->
  distinct (map Event.pk (events db)) = true ->
  (forall e, In e (events db) -> pk_in (Event.pk e) pks = true ->
             linked db (Event.pk e) (Service.pk instance) = true) ->
  forall e, In e (events db) -> pk_in (Event.pk e) pks = true ->
            Event.status e
            <= Service.status
                 (snd (handle_event_m2m_save db ModelEvent instance action
                                             reverse (Some pks))).
Proof.
  intros Hp Hd Hl e Hin Hpk.
  assert (Hne : pks <> []) by (intros ->; discriminate Hpk).
  rewrite handle_event_m2m_save_reverse by assumption.
  set (l := filter (fun e => pk_in (Event.pk e) pks) (events db)).
  assert (Hall : forall e', In e' l ->
                   In e' (events db)
                   /\ linked db (Event.pk e') (Service.pk instance) = true).
  { intros e' He'. apply filter_In in He' as [He' Hk]. auto. }
  assert (Hel : In e l) by (apply filter_In; auto).
  destruct l as [|e0 l']; [contradiction|].
  cbn [fold_left fst snd].
  destruct (Hall e0 (or_introl eq_refl)) as [Hin0 Hl0].
  destruct (update_from_event_frame db instance e0) as (Fe & Fl & _).
  pose proof (update_from_event_pk db instance e0) as Hpk0.
  pose proof (justified_step db instance e0 Hin0 Hl0) as Hj.
  pose proof (update_from_event_status_ge db instance e0) as Hge.
  destruct (update_from_event db instance e0) as [db1 self1].
  cbn [fst snd] in *.
  destruct (fold_reverse_raises l' db1 self1) as [R1 R2]; auto.
  - now rewrite Fe.
  - intros e' He'. destruct (Hall e' (or_intror He')) as [Hin' Hl'].
    unfold linked in *. rewrite Fe, Fl, Hpk0. auto.
  - destruct Hel as [<-|Hel]; [|auto].
    exact (Z.le_trans _ _ _ Hge R1).
Qed.

Lemma m2m_reverse_post_dominates_witness :
  2 <= Service.status
         (snd (handle_event_m2m_save
                 (mkDB [Service.mk 1 0 0]
                       [Event.mk 1 2 2 None None 5; Event.mk 2 1 1 None None 3]
                       [(1, 1); (2, 1)] [])
                 ModelEvent (Service.mk 1 0 0) "post_add" true
                 (Some [1; 2]))).
Proof.
  apply (m2m_reverse_post_dominates
           (mkDB [Service.mk 1 0 0]
                 [Event.mk 1 2 2 None None 5; Event.mk 2 1 1 None None 3]
                 [(1, 1); (2, 1)] [])
           (Service.mk 1 0 0) "post_add" true [1; 2]
           eq_refl eq_refl) with (e := Event.mk 1 2 2 None None 5).
  - intros e [<-|[<-|[]]] _; reflexivity.
  - left. reflexivity.
  - reflexivity.
Defined.

(** X15: after a [post_] notification whose keys name services, every
    service named is where one call of [update_from_event] on its row puts
    it, whatever the other services named, hence at a status not below the
    event's (service keys being unique). *)
Theorem m2m_forward_post_each_service (db : DB) (instance : Event.t)
  (action : string) (reverse : bool) (pks : list Z) (s : Service.t) :
  prefix "post_" action = true ->
  distinct (map Service.pk (services db)) = true ->
  get_service db (Service.pk s) = Some s ->
  pk_in (Service.pk s) pks = true ->
  let db' := fst (handle_event_m2m_save db ModelService instance action
                                        reverse (Some pks)) in
  get_service db' (Service.pk s) = Some (snd (update_from_event db s instance))
  /\ Event.status instance
     <= Service.status (snd (update_from_event db s instance)).
Proof.
  intros Hp Hd Hget Hpk db'. subst db'.
  assert (Hne : pks <> []) by (intros ->; discriminate Hpk).
  rewrite handle_event_m2m_save_forward by assumption. cbn [fst].
  split; [|apply update_from_event_status_ge].
  apply fold_update_from_event_hit; auto.
  - now apply distinct_filter.
  - apply filter_In. split; [|exact Hpk].
    now apply (get_service_pk db (Service.pk s)).
Qed.

Lemma m2m_forward_post_each_service_witness :
  get_service
    (fst (handle_event_m2m_save
            (mkDB [Service.mk 1 0 0; Service.mk 2 1 0] [] [] [])
            ModelService (Event.mk 5 2 2 None None 3) "post_add" false
            (Some [2; 1]))) 2
  = Some (snd (update_from_event
                 (mkDB [Service.mk 1 0 0; Service.mk 2 1 0] [] [] [])
                 (Service.mk 2 1 0) (Event.mk 5 2 2 None None 3))).
Proof.
  apply (m2m_forward_post_each_service
           (mkDB [Service.mk 1 0 0; Service.mk 2 1 0] [] [] [])
           (Event.mk 5 2 2 None None 3) "post_add" false [2; 1]
           (Service.mk 2 1 0)); reflexivity.
Defined.

(** ** From an append to the services *)

(** After a call for an event object linked to the service, whose status is
    also that of a row of the events table with its key, the status of the
    service is held by a linked event of the table. *)
Lemma justified_step_row (db : DB) (self : Service.t) (event row : Event.t) :
  In row (events db) ->
  Event.pk row = Event.pk event ->
  Event.status row = Event.status event ->
  linked db (Event.pk event) (Service.pk self) = true ->
  justified (fst (update_from_event db self event))
            (snd (update_from_event db self event)).
Proof.
  intros Hin Hpk Hst Hl.
  destruct (update_from_event_frame db self event) as (Fe & Fl & _).
  pose proof (update_from_event_pk db self event) as Hpks.
  destruct (update_from_event_self db self event) as [_ Hs].
  unfold justified, linked in *. rewrite Fe, Fl, Hpks, Hs, Z.gtb_ltb.
  destruct (Z.ltb_spec (Service.status self) (Event.status event)).
  { exists row. rewrite Hpk. auto. }
  destruct (Z.ltb_spec (Event.status event) (Service.status self)).
  - destruct (other_event_matches db self event) eqn:Ho.
    + apply other_event_matches_spec in Ho as (e & He & Hle & Hse & _).
      now exists e.
    + exists row. rewrite Hpk. auto.
  - exists row. rewrite Hpk. repeat split; auto. lia.
Qed.

(** X16: after an update is appended to an existing event, the status of
    every service linked to the event is the status of some event linked
    to that service: an append never leaves a linked service at a status
    that no event linked to it has, whatever event object is attached to
    the update (service keys being unique). *)
Theorem append_update_status_is_held (db db' : DB) (u : EventUpdate.t)
  (c : option Event.t) (obj' : Event.t) (s : Service.t) :
  append_update db u c = Some (db', obj') ->
  cache_names_event u c ->
  c = None \/ get_event db (EventUpdate.event u) <> None ->
  distinct (map Service.pk (services db)) = true ->
  get_service db (Service.pk s) = Some s ->
  linked db (EventUpdate.event u) (Service.pk s) = true ->
  exists s' e',
    get_service db' (Service.pk s) = Some s'
    /\ In e' (events db')
    /\ linked db' (Event.pk e') (Service.pk s) = true
    /\ Event.status e' = Service.status s'.
Proof.
  intros Ha Hc Hex Hd Hget Hl. unfold append_update in Ha.
  pose proof (handle_update_save_pk _ _ _ _ _ _ Ha Hc) as Hpk.
  assert (Hrow : exists row, get_event db (EventUpdate.event u) = Some row).
  { destruct Hex as [->|Hex].
    - now destruct (handle_update_save_fetched _ _ _ _ _ Ha) as [_ Hr].
    - destruct (get_event db (EventUpdate.event u)) as [row|];
        [now exists row | contradiction]. }
  destruct Hrow as [row Hrow].
  destruct (get_event_pk _ _ _ Hrow) as [Hrpk Hrin].
  apply handle_update_save_some in Ha as (obj & Hi & -> & ->).
  change (Event.pk (aggregate_with obj obj u)) with (Event.pk obj) in Hpk.
  set (kw := build_update_kwargs obj u).
  set (db1 := set_events _ _).
  set (ev := setattrs kw obj).
  assert (Hl1 : linked db1 (Event.pk ev) (Service.pk s) = true).
  { change (linked db (Event.pk obj) (Service.pk s) = true).
    now rewrite Hpk. }
  assert (Hin1 : In (setattrs kw row) (events db1)).
  { subst db1. cbn [events set_events set_eventupdates]. unfold qs_update.
    apply in_map_iff. exists row. split; [|exact Hrin].
    now rewrite Hrpk, Hpk, Z.eqb_refl. }
  destruct (justified_step_row db1 s ev (setattrs kw row) Hin1)
    as (e' & Hin' & Hl' & Hs');
    [simpl; congruence | reflexivity | exact Hl1 |].
  destruct (update_from_event_frame db1 s ev) as (Fe & Fl & _).
  pose proof (update_from_event_pk db1 s ev) as Hpks.
  destruct (handle_event_save_frame db1 ev) as (Ge & Gl & _).
  exists (snd (update_from_event db1 s ev)), e'.
  split; [now apply handle_event_save_row|].
  unfold linked in *. rewrite Ge, Gl. rewrite Fe in Hin'.
  rewrite Fl, Hpks in Hl'. auto.
Qed.

Lemma append_update_status_is_held_witness :
  exists s' e',
    get_service (fst Sample.appended) 1 = Some s'
    /\ In e' (events (fst Sample.appended))
    /\ Event.status e' = Service.status s'.
Proof.
  destruct (append_update_status_is_held Sample.db0 (fst Sample.appended)
              Sample.first_update (Some Sample.old_object)
              (snd Sample.appended) (Service.mk 1 0 0))
    as (s' & e' & Hg & Hin & _ & Hs); try reflexivity.
  - right. discriminate.
  - exists s', e'. repeat split; assumption.
Defined.

(** ** The attached object and the row *)

(** X17: when the event object attached to the update is the row of its
    event, it still is after the handler: the handler keeps the object it
    is given in step with the database. *)
Theorem handle_update_save_keeps_in_step (db db' : DB)
  (instance : EventUpdate.t) (ev : Event.t) (created : bool)
  (obj' : Event.t) :
  handle_update_save db instance (Some ev) created = Some (db', obj') ->
  get_event db (Event.pk ev) = Some ev ->
  Event.pk obj' = Event.pk ev
  /\ get_event db' (Event.pk ev) = Some obj'.
Proof.
  intros Hs He.
  assert (Hpk : Event.pk obj' = Event.pk ev).
  { apply handle_update_save_some in Hs as (obj & Hi & -> & _).
    simpl in Hi. injection Hi as <-. reflexivity. }
  split; [exact Hpk|]. rewrite <- Hpk in He |- *.
  destruct (handle_update_save_row _ _ _ _ _ _ _ Hs He) as [Hg Ho].
  rewrite Hg, Ho. reflexivity.
Qed.

Lemma handle_update_save_keeps_in_step_witness :
  get_event
    (fst (match handle_update_save Sample.db Sample.first_update
                  (Some (Event.mk 1 0 0 (Some "d") (Some "m") 1)) false with
          | Some r => r
          | None => (Sample.db, Sample.old_object)
          end)) 1
  = Some (Event.mk 1 2 2 (Some "d") None 3).
Proof.
  apply (handle_update_save_keeps_in_step Sample.db _ Sample.first_update
           (Event.mk 1 0 0 (Some "d") (Some "m") 1) false
           (Event.mk 1 2 2 (Some "d") None 3)); reflexivity.
Defined.
